(** * png2svg: row-scan run extraction and SVG writer

    A shallow embedding of [png2svg.py].  The script loads an image as an
    RGBA pixel grid, scans every row from left to right, turns each maximal
    horizontal run of equal, non-transparent colour into a rectangle of
    height one, collects the rectangles per colour in a dictionary (in
    insertion order) and finally prints one SVG group per colour. *)

From Stdlib Require Import List Arith NArith Bool Lia String Ascii.
From Stdlib Require Import DecimalString HexadecimalString Sorted.
From Stdlib Require DecimalFacts DecimalNat.
From Equations Require Import Equations.
From Equations.Prop Require Import Logic.
Import ListNotations.

Local Open Scope string_scope.
Local Open Scope list_scope.
Local Open Scope nat_scope.

(** ** Data model *)

(** [px[x, y]] of an RGBA image: the tuple [(r, g, b, a)]. *)
Definition pixel : Type := N * N * N * N.

(** The colour tuple [(r, g, b)] the inner loop compares with. *)
Definition rgb : Type := N * N * N.

(** A rectangle [(x0, y, run_w, 1)] as the script stores it. *)
Definition rect : Type := nat * nat * nat * nat.

(** The dictionary [layers]: colour key to list of rectangles.  Python
    dictionaries iterate in the order in which their keys were first
    inserted, so the model is an association list in that order. *)
Definition layers_t : Type := list (string * list rect).

(** An 8-bit channel value, as an image converted to RGBA carries. *)
Definition channel_ok (c : N) : Prop := (c < 256)%N.

Definition rgb_ok (c : rgb) : Prop :=
  let '(r, g, b) := c in channel_ok r /\ channel_ok g /\ channel_ok b.

Definition rgb_of (p : pixel) : rgb := let '(r, g, b, _) := p in (r, g, b).

Definition alpha_of (p : pixel) : N := let '(_, _, _, a) := p in a.

(** ** Formatting *)

(** The characters that cannot be typed inside a string literal. *)
Definition dquote : string := String (ascii_of_nat 34) EmptyString.
Definition newline : string := String (ascii_of_nat 10) EmptyString.

(** [f"{n}"] for a non-negative integer: decimal digits, no padding. *)
Definition str_int (n : nat) : string :=
  DecimalString.NilZero.string_of_uint (Nat.to_uint n).

(** [f"{n:x}"]: lowercase hexadecimal digits. *)
Definition hex (n : N) : string :=
  HexadecimalString.NilZero.string_of_uint (N.to_hex_uint n).

(** Left padding with zeros up to a minimal width. *)
Fixpoint zeros (k : nat) : string :=
  match k with
  | O => EmptyString
  | S k' => String "0" (zeros k')
  end.

(** [f"{n:02x}"]: hexadecimal, zero-padded to at least two characters. *)
Definition format_02x (n : N) : string :=
  let s := hex n in (zeros (2 - String.length s) ++ s)%string.

(** [color = f"#{r:02x}{g:02x}{b:02x}"]. *)
Definition color_key (r g b : N) : string :=
  ("#" ++ format_02x r ++ format_02x g ++ format_02x b)%string.

(** ** The dictionary operation *)

(** [layers.setdefault(color, []).append(rc)]: the list stored under
    [color] grows at its end; a new key is inserted after all others. *)
Fixpoint setdefault_append (layers : layers_t) (color : string) (rc : rect)
  : layers_t :=
  match layers with
  | [] => [(color, [rc])]
  | (k, rects) :: rest =>
      if String.eqb k color then (k, rects ++ [rc]) :: rest
      else (k, rects) :: setdefault_append rest color rc
  end.

(** ** Run extraction *)

Definition rgb_eqb (c1 c2 : rgb) : bool :=
  let '(r1, g1, b1) := c1 in
  let '(r2, g2, b2) := c2 in
  (r1 =? r2)%N && (g1 =? g2)%N && (b1 =? b2)%N.

(** The [break] test of the inner loop:
    [a2 == 0 or (r2, g2, b2) != (r, g, b)]. *)
Definition run_breaks (p : pixel) (c : rgb) : bool :=
  let '(r2, g2, b2, a2) := p in
  (a2 =? 0)%N || negb (rgb_eqb (r2, g2, b2) c).

Section Converter.

(** [w, h = img.size] and [px = img.load()]. *)
Variables (w h : nat) (px : nat -> nat -> pixel).

(** The inner [while x < w] loop: the value of [x] when it exits. *)
Equations? extend_run (y : nat) (c : rgb) (x : nat) : nat
  by wf (w - x) lt :=
  extend_run y c x with lt_dec x w := {
    | left _ := if run_breaks (px x y) c then x
                else extend_run y c (S x);
    | right _ := x }.
Proof. lia. Qed.

(** The outer [while x < w] loop of one row, threading [layers].  The
    inner loop never moves [x] to the left, so that [x - x0] on natural
    numbers is the difference the script computes. *)
Equations? scan_row (y : nat) (x : nat) (layers : layers_t) : layers_t
  by wf (w - x) lt :=
  scan_row y x layers with lt_dec x w := {
    | right _ := layers;
    | left Hlt with inspect (px x y) := {
        | exist _ (r, g, b, a) Hpx with inspect (a =? 0)%N := {
            | exist _ true _ := scan_row y (S x) layers;
            | exist _ false Ha :=
                let x0 := x in
                let x1 := extend_run y (r, g, b) x in
                let run_w := x1 - x0 in
                scan_row y x1
                  (setdefault_append layers (color_key r g b)
                     (x0, y, run_w, 1)) } } }.
Proof.
- lia.
- subst x0 x1 run_w.
  assert (Hge : forall c x', x' <= extend_run y c x').
  { clear. intros c x'. funelim (extend_run y c x'); cbn.
    - destruct (run_breaks (px x y) c); [lia |].
      match goal with IH : _ <= extend_run _ _ _ |- _ => lia end.
    - lia. }
  assert (Hstep : extend_run y (r, g, b) x
                  = extend_run y (r, g, b) (S x)).
  { rewrite (extend_run_equation_1 y (r, g, b) x).
    destruct (lt_dec x w) as [Hl | Hn]; [| lia].
    cbn. rewrite Hpx. unfold run_breaks, rgb_eqb.
    rewrite Ha, !N.eqb_refl. reflexivity. }
  specialize (Hge (r, g, b) (S x)). rewrite <- Hstep in Hge. lia.
Qed.

(** [for y in range(h)]: the rows in order, starting from [layers = {}]. *)
Definition scan_rows (ys : list nat) (layers : layers_t) : layers_t :=
  fold_left (fun acc y => scan_row y 0 acc) ys layers.

Definition extract_layers : layers_t := scan_rows (seq 0 h) [].

End Converter.


(** ** The SVG writer *)

(** [f.write(s)] on a file opened for writing: the text grows at its end. *)
Definition write (f s : string) : string := (f ++ s)%string.

(** The root element's opening tag, with the view box [0 0 w h]. *)
Definition svg_open (w h : nat) : string :=
  ("<svg xmlns=" ++ dquote ++ "http://www.w3.org/2000/svg" ++ dquote
   ++ " viewBox=" ++ dquote ++ "0 0 " ++ str_int w ++ " " ++ str_int h
   ++ dquote ++ " shape-rendering=" ++ dquote ++ "crispEdges" ++ dquote
   ++ ">" ++ newline)%string.

Definition g_open (color : string) : string :=
  ("  <g fill=" ++ dquote ++ color ++ dquote ++ ">" ++ newline)%string.

Definition g_close : string := ("  </g>" ++ newline)%string.

Definition svg_close : string := ("</svg>" ++ newline)%string.

Definition rect_line (rc : rect) : string :=
  let '(x0, y0, rw, rh) := rc in
  ("    <rect x=" ++ dquote ++ str_int x0 ++ dquote
   ++ " y=" ++ dquote ++ str_int y0 ++ dquote
   ++ " width=" ++ dquote ++ str_int rw ++ dquote
   ++ " height=" ++ dquote ++ str_int rh ++ dquote ++ "/>" ++ newline)%string.

(** [for x0, y0, rw, rh in rects: f.write(...)]. *)
Definition write_rects (f : string) (rects : list rect) : string :=
  fold_left (fun f rc => write f (rect_line rc)) rects f.

(** The body of [for color, rects in layers.items()]. *)
Definition write_group (f : string) (g : string * list rect) : string :=
  let '(color, rects) := g in
  let f := write f (g_open color) in
  let f := write_rects f rects in
  write f g_close.

(** The [with open(outp, "w") as f] block: the text of the output file. *)
Definition write_svg (w h : nat) (layers : layers_t) : string :=
  let f := EmptyString in
  let f := write f (svg_open w h) in
  let f := fold_left write_group layers f in
  write f svg_close.

(** The whole script, from the pixel grid to the text of the document. *)
Definition png2svg (w h : nat) (px : nat -> nat -> pixel) : string :=
  write_svg w h (extract_layers w h px).

(** ** Vocabulary of the properties *)

(** An image whose colour channels are 8-bit values, as every image
    converted to RGBA is. *)
Definition image_ok (w h : nat) (px : nat -> nat -> pixel) : Prop :=
  forall x y, x < w -> y < h -> rgb_ok (rgb_of (px x y)).

Definition visible (p : pixel) : bool := negb (alpha_of p =? 0)%N.

(** The colour key of a colour tuple. *)
Definition key_of (c : rgb) : string :=
  let '(r, g, b) := c in color_key r g b.

(** Reading a hexadecimal string back, to tell formatted channels apart. *)
Definition unhex (s : string) : N :=
  match HexadecimalString.NilZero.uint_of_string s with
  | Some u => N.of_hex_uint u
  | None => 0%N
  end.

(** The pixels a rectangle paints. *)
Definition covers (rc : rect) (x y : nat) : Prop :=
  let '(x0, y0, rw, rh) := rc in
  x0 <= x < x0 + rw /\ y0 <= y < y0 + rh.

Definition coversb (rc : rect) (x y : nat) : bool :=
  let '(x0, y0, rw, rh) := rc in
  (x0 <=? x) && (x <? x0 + rw) && (y0 <=? y) && (y <? y0 + rh).

(** All rectangles of the dictionary, group after group. *)
Definition emitted (layers : layers_t) : list rect :=
  List.concat (map snd layers).

(** How many emitted rectangles paint the pixel [(x, y)]. *)
Definition cover_count (layers : layers_t) (x y : nat) : nat :=
  List.length (filter (fun rc => coversb rc x y) (emitted layers)).

(** [rc] is one of the rectangles stored under the key [k]. *)
Definition emitted_under (layers : layers_t) (k : string) (rc : rect)
  : Prop :=
  exists rects, In (k, rects) layers /\ In rc rects.

(** [x1] is where a run of colour [c] that starts at [x] in row [y] ends:
    the pixels of [x .. x1 - 1] continue the run, and the run stops at [x1]
    because the row ends there or the pixel at [x1] breaks it. *)
Definition run_end (w : nat) (px : nat -> nat -> pixel) (y : nat) (c : rgb)
  (x x1 : nat) : Prop :=
  x <= x1 /\
  (forall x', x <= x' < x1 -> x' < w /\ run_breaks (px x' y) c = false) /\
  (x1 < w -> run_breaks (px x1 y) c = true) /\
  (x <= w -> x1 <= w).

(** [rc], stored under [k], is a maximal run of the image: one row high,
    not empty, inside the row, painted on non-transparent pixels of the one
    colour that [k] names, and ending at the end of the row or in front
    of a pixel that is transparent or of another colour. *)
Definition maximal_run (w h : nat) (px : nat -> nat -> pixel)
  (k : string) (rc : rect) : Prop :=
  let '(x0, y, rw, rh) := rc in
  rh = 1 /\ 1 <= rw /\ x0 + rw <= w /\ y < h /\
  exists c,
    k = key_of c /\
    (forall x, x0 <= x < x0 + rw ->
       alpha_of (px x y) <> 0%N /\ rgb_of (px x y) = c) /\
    (x0 + rw = w \/
     alpha_of (px (x0 + rw) y) = 0%N \/ rgb_of (px (x0 + rw) y) <> c).

(** The pixel [(x', y')] lies before the scan position [(x, y)]. *)
Definition scanned (y x y' x' : nat) : Prop :=
  y' < y \/ (y' = y /\ x' < x).

Definition scannedb (y x y' x' : nat) : bool :=
  (y' <? y) || ((y' =? y) && (x' <? x)).

(** Row-major order on rectangles: by row, then by start column. *)
Definition scan_lt (rc1 rc2 : rect) : Prop :=
  let '(x1, y1, _, _) := rc1 in
  let '(x2, y2, _, _) := rc2 in
  y1 < y2 \/ (y1 = y2 /\ x1 < x2).

(** The rectangle [rc] starts before the scan position [(x, y)]. *)
Definition before_pos (y x : nat) (rc : rect) : Prop :=
  let '(x0, y0, _, _) := rc in y0 < y \/ (y0 = y /\ x0 < x).

(** The group [g1] was opened before the group [g2]: one of the runs of
    [g1] comes, in row-major order, before every run of [g2]. *)
Definition group_before (g1 g2 : string * list rect) : Prop :=
  exists rc1, In rc1 (snd g1) /\ forall rc2, In rc2 (snd g2) -> scan_lt rc1 rc2.

(** The invariant of the scan that the order of the output rests on. *)
Definition ordered_upto (y x : nat) (layers : layers_t) : Prop :=
  Forall (fun g => snd g <> [] /\
                   StronglySorted scan_lt (snd g) /\
                   Forall (before_pos y x) (snd g)) layers /\
  StronglySorted group_before layers /\
  NoDup (map fst layers).

(** Two pixel grids that agree, inside the image, on the colour of every
    non-transparent pixel and on which pixels are transparent. *)
Definition same_up_to_alpha (w h : nat) (px px' : nat -> nat -> pixel)
  : Prop :=
  forall x y, x < w -> y < h ->
    (alpha_of (px x y) = 0%N <-> alpha_of (px' x y) = 0%N) /\
    (alpha_of (px x y) <> 0%N -> rgb_of (px x y) = rgb_of (px' x y)).

(** The text of one group, as a concatenation. *)
Definition group_text (g : string * list rect) : string :=
  (g_open (fst g) ++ String.concat EmptyString (map rect_line (snd g))
   ++ g_close)%string.

(** ** Example images *)

(** The pixel accessor of an image given by its rows; the value outside of
    the rows is never read by the scan. *)
Definition image_of_rows (rows : list (list pixel)) (x y : nat) : pixel :=
  nth x (nth y rows []) (0, 0, 0, 0)%N.

Definition red : pixel := (255, 0, 0, 255)%N.
Definition blue : pixel := (0, 0, 255, 255)%N.
Definition faint_red : pixel := (255, 0, 0, 7)%N.

(** The 3x1 image red, red, blue, all opaque. *)
Definition red_red_blue : nat -> nat -> pixel :=
  image_of_rows [[red; red; blue]].

(** The same row, with other data outside of the 3x1 grid. *)
Definition red_red_blue_padded : nat -> nat -> pixel :=
  image_of_rows [[red; red; blue; red]; [blue]].

(** A 2x1 image: the same red twice, with two different non-zero alphas,
    and the image in which both pixels are opaque. *)
Definition red_faint : nat -> nat -> pixel := image_of_rows [[red; faint_red]].
Definition red_opaque : nat -> nat -> pixel := image_of_rows [[red; red]].

(** A 2x2 image without a visible pixel. *)
Definition clear_image : nat -> nat -> pixel :=
  image_of_rows [[(10, 20, 30, 0)%N; (0, 0, 0, 0)%N];
                 [(0, 0, 0, 0)%N; (255, 255, 255, 0)%N]].

(** ** Further vocabulary *)

(** [layers.get(k)]: the list stored under the first entry with key [k]. *)
Fixpoint lookup (layers : layers_t) (k : string) : option (list rect) :=
  match layers with
  | [] => None
  | (k0, rects) :: rest =>
      if String.eqb k0 k then Some rects else lookup rest k
  end.

(** A lowercase hexadecimal digit. *)
Definition hex_lower (c : ascii) : bool :=
  let n := nat_of_ascii c in
  ((48 <=? n) && (n <=? 57)) || ((97 <=? n) && (n <=? 102)).

Fixpoint all_chars (f : ascii -> bool) (s : string) : bool :=
  match s with
  | EmptyString => true
  | String c s' => f c && all_chars f s'
  end.

(** A decimal digit. *)
Definition dec_digit (c : ascii) : bool :=
  let n := nat_of_ascii c in (48 <=? n) && (n <=? 57).

(** The run that starts at [x0] is maximal to the left: it starts the row,
    or the pixel in front of it is transparent or of another colour. *)
Definition left_maximal (px : nat -> nat -> pixel) (rc : rect) : Prop :=
  let '(x0, y, _, _) := rc in
  x0 = 0 \/
  alpha_of (px (x0 - 1) y) = 0%N \/
  rgb_of (px (x0 - 1) y) <> rgb_of (px x0 y).

(** The scan position [(x, y)] is a place where a run may start. *)
Definition run_start_pos (w : nat) (px : nat -> nat -> pixel) (y x : nat)
  : Prop :=
  x = 0 \/ w <= x \/
  alpha_of (px (x - 1) y) = 0%N \/
  run_breaks (px x y) (rgb_of (px (x - 1) y)) = true.

(** The sum of the widths of all rectangles. *)
Definition rect_width (rc : rect) : nat := let '(_, _, rw, _) := rc in rw.

Definition total_width (layers : layers_t) : nat :=
  list_sum (map rect_width (emitted layers)).

(** The number of visible pixels in the columns [0 .. x - 1] of row [y],
    and in the rows [0 .. h - 1] of the image. *)
Definition visible_in_row (px : nat -> nat -> pixel) (y x : nat) : nat :=
  List.length (filter (fun x' => visible (px x' y)) (seq 0 x)).

Definition visible_pixels (w h : nat) (px : nat -> nat -> pixel) : nat :=
  list_sum (map (fun y => visible_in_row px y w) (seq 0 h)).

(** A 2x3 image of one opaque colour, and a 4x2 image with gaps. *)
Definition all_red : nat -> nat -> pixel :=
  image_of_rows [[red; faint_red]; [faint_red; red]; [red; red]].

Definition gaps : nat -> nat -> pixel :=
  image_of_rows [[red; (1, 2, 3, 0)%N; red; blue];
                 [blue; blue; (1, 2, 3, 0)%N; faint_red]].


(** How often the character [c] occurs in a text. *)
Fixpoint count_char (c : ascii) (s : string) : nat :=
  match s with
  | EmptyString => 0
  | String a s' => (if Ascii.eqb a c then 1 else 0) + count_char c s'
  end.

(** The line feed that ends every line the script writes. *)
Definition line_feed : ascii := ascii_of_nat 10.


(** ** The document format, as the specification words it *)

(** [s] is the decimal numeral of [n]: it reads back as [n] and has no
    leading zero. *)
Definition decimal_of (n : nat) (s : string) : Prop :=
  exists d,
    DecimalString.NilZero.uint_of_string s = Some d /\
    Nat.of_uint d = n /\
    Decimal.unorm d = d.

(** A rectangle element: one line with the attributes x, y, width and
    height of the run, as decimal numerals. *)
Definition rect_element (rc : rect) (s : string) : Prop :=
  let '(x0, y0, rw, rh) := rc in
  exists sx sy sw sh,
    decimal_of x0 sx /\ decimal_of y0 sy /\
    decimal_of rw sw /\ decimal_of rh sh /\
    s = ("    <rect x=" ++ dquote ++ sx ++ dquote
         ++ " y=" ++ dquote ++ sy ++ dquote
         ++ " width=" ++ dquote ++ sw ++ dquote
         ++ " height=" ++ dquote ++ sh ++ dquote ++ "/>" ++ newline)%string.

(** A group element: the fill attribute set to the colour key, then one
    rectangle element per run, in run order. *)
Definition group_element (g : string * list rect) (s : string) : Prop :=
  exists lines,
    Forall2 rect_element (snd g) lines /\
    s = ("  <g fill=" ++ dquote ++ fst g ++ dquote ++ ">" ++ newline
         ++ String.concat EmptyString lines
         ++ "  </g>" ++ newline)%string.

(** The document: a root element with the view region [0 0 w h] and the
    crisp-edge hint, holding one group element per key in the mapping's
    order. *)
Definition svg_document (w h : nat) (layers : layers_t) (s : string)
  : Prop :=
  exists sw sh groups,
    decimal_of w sw /\ decimal_of h sh /\
    Forall2 group_element layers groups /\
    s = ("<svg xmlns=" ++ dquote ++ "http://www.w3.org/2000/svg" ++ dquote
         ++ " viewBox=" ++ dquote ++ "0 0 " ++ sw ++ " " ++ sh ++ dquote
         ++ " shape-rendering=" ++ dquote ++ "crispEdges" ++ dquote
         ++ ">" ++ newline
         ++ String.concat EmptyString groups
         ++ "</svg>" ++ newline)%string.

(** ** The runs and the keys of an image, read off its pixels *)

(** The pixel [(x1, y1)] comes before [(x2, y2)] in the row-major scan. *)
Definition pixel_before (x1 y1 x2 y2 : nat) : Prop :=
  y1 < y2 \/ (y1 = y2 /\ x1 < x2).

(** The key [k1] is met by the scan before the key [k2]: a visible pixel
    with key [k1] comes before every visible pixel with key [k2]. *)
Definition key_before (w h : nat) (px : nat -> nat -> pixel)
  (k1 k2 : string) : Prop :=
  exists x1 y1,
    x1 < w /\ y1 < h /\ alpha_of (px x1 y1) <> 0%N /\
    key_of (rgb_of (px x1 y1)) = k1 /\
    forall x2 y2, x2 < w -> y2 < h -> alpha_of (px x2 y2) <> 0%N ->
      key_of (rgb_of (px x2 y2)) = k2 -> pixel_before x1 y1 x2 y2.

(** [rc] is a run of the image with key [k]: a rectangle of height one
    inside the image, on visible pixels of one colour with that key, that
    can be extended neither to the left nor to the right. *)
Definition image_run (w h : nat) (px : nat -> nat -> pixel)
  (k : string) (rc : rect) : Prop :=
  let '(x0, y, rw, rh) := rc in
  rh = 1 /\ 1 <= rw /\ x0 + rw <= w /\ y < h /\
  exists c,
    k = key_of c /\
    (forall x, x0 <= x < x0 + rw ->
       alpha_of (px x y) <> 0%N /\ rgb_of (px x y) = c) /\
    (x0 = 0 \/
     alpha_of (px (x0 - 1) y) = 0%N \/ rgb_of (px (x0 - 1) y) <> c) /\
    (x0 + rw = w \/
     alpha_of (px (x0 + rw) y) = 0%N \/ rgb_of (px (x0 + rw) y) <> c).


(** * Properties *)

(** ** The two loops, unfolded once *)

Lemma extend_run_eq w px y c x :
  extend_run w px y c x =
  if x <? w then
    if run_breaks (px x y) c then x else extend_run w px y c (S x)
  else x.
Proof.
  rewrite extend_run_equation_1.
  destruct (Nat.ltb_spec x w); destruct (lt_dec x w); try lia; reflexivity.
Qed.

Lemma scan_row_done w px y x layers :
  w <= x -> scan_row w px y x layers = layers.
Proof.
  intros Hx. funelim (scan_row w px y x layers); try lia. reflexivity.
Qed.

Lemma scan_row_skip w px y x layers :
  x < w -> alpha_of (px x y) = 0%N ->
  scan_row w px y x layers = scan_row w px y (S x) layers.
Proof.
  intros Hx Ha. funelim (scan_row w px y x layers); try lia.
  - reflexivity.
  - rewrite Hpx in Ha0. cbn in Ha0. subst a. discriminate.
Qed.

Lemma scan_row_run w px y x layers r g b a :
  x < w -> px x y = (r, g, b, a) -> a <> 0%N ->
  scan_row w px y x layers =
  scan_row w px y (extend_run w px y (r, g, b) x)
    (setdefault_append layers (color_key r g b)
       (x, y, extend_run w px y (r, g, b) x - x, 1)).
Proof.
  intros Hx Hp Hnz. funelim (scan_row w px y x layers); try lia.
  - rewrite Hpx in Hp. inversion Hp; subst.
    match goal with E : (_ =? 0)%N = true |- _ =>
      pose proof (proj1 (N.eqb_eq _ _) E); contradiction end.
  - rewrite Hpx in Hp. inversion Hp; subst. reflexivity.
Qed.

(** ** What the inner loop computes *)

Lemma extend_run_end w px y c x : run_end w px y c x (extend_run w px y c x).
Proof.
  remember (w - x) as n eqn:Hn. revert x Hn.
  induction n as [n IH] using lt_wf_ind. intros x Hn.
  rewrite extend_run_eq.
  destruct (Nat.ltb_spec x w) as [Hlt | Hge].
  - destruct (run_breaks (px x y) c) eqn:Hb.
    + split; [| split; [| split]]; intros; try lia. assumption.
    + destruct (IH (w - S x) ltac:(lia) (S x) eq_refl)
        as (H1 & H2 & H3 & H4).
      split; [| split; [| split]]; try lia; [| assumption].
      intros x' Hx'.
      destruct (Nat.eq_dec x' x) as [-> | Hne]; [split; assumption |].
      apply H2. lia.
  - split; [| split; [| split]]; intros; lia.
Qed.

Lemma run_breaks_false p c :
  run_breaks p c = false <-> alpha_of p <> 0%N /\ rgb_of p = c.
Proof.
  destruct p as [[[r g] b] a], c as [[r' g'] b']. cbn.
  rewrite orb_false_iff, negb_false_iff, !andb_true_iff, !N.eqb_eq, N.eqb_neq.
  split.
  - intros (Ha & (-> & ->) & ->). split; [assumption | reflexivity].
  - intros (Ha & E). inversion E. tauto.
Qed.

Lemma run_breaks_true p c :
  run_breaks p c = true <-> alpha_of p = 0%N \/ rgb_of p <> c.
Proof.
  destruct (run_breaks p c) eqn:E.
  - split; [intros _ | reflexivity].
    destruct (N.eq_dec (alpha_of p) 0) as [Hz | Hnz]; [left; assumption |].
    right. intros Hc.
    assert (F : run_breaks p c = false) by (apply run_breaks_false; tauto).
    congruence.
  - apply run_breaks_false in E. split; [discriminate |].
    intros [Hz | Hne]; tauto.
Qed.

(** A run that starts on a pixel of its own colour is not empty. *)
Lemma extend_run_advances w px y x r g b a :
  x < w -> px x y = (r, g, b, a) -> a <> 0%N ->
  x < extend_run w px y (r, g, b) x.
Proof.
  intros Hx Hp Hnz. rewrite extend_run_eq.
  apply Nat.ltb_lt in Hx. rewrite Hx.
  assert (Hb : run_breaks (px x y) (r, g, b) = false).
  { apply run_breaks_false. rewrite Hp. cbn. tauto. }
  rewrite Hb. destruct (extend_run_end w px y (r, g, b) (S x)). lia.
Qed.

(** ** The loop rule of the scan *)

(** An invariant [P y x layers] of the scan position and the dictionary
    that holds at the start, survives a transparent pixel, a recorded run
    and the change of row, holds when the scan is over. *)
Section ScanRule.

Variables (w h : nat) (px : nat -> nat -> pixel).
Variable P : nat -> nat -> layers_t -> Prop.

Hypothesis P_skip : forall y x layers,
  y < h -> x < w -> alpha_of (px x y) = 0%N ->
  P y x layers -> P y (S x) layers.

Hypothesis P_run : forall y x layers r g b a x1,
  y < h -> x < w -> px x y = (r, g, b, a) -> a <> 0%N ->
  x1 = extend_run w px y (r, g, b) x -> x < x1 <= w ->
  run_end w px y (r, g, b) x x1 ->
  P y x layers ->
  P y x1 (setdefault_append layers (color_key r g b) (x, y, x1 - x, 1)).

Hypothesis P_row : forall y layers,
  y < h -> P y w layers -> P (S y) 0 layers.

Lemma scan_row_rule y x layers :
  y < h -> x <= w -> P y x layers -> P y w (scan_row w px y x layers).
Proof.
  intros Hy. remember (w - x) as n eqn:Hn. revert x layers Hn.
  induction n as [n IH] using lt_wf_ind. intros x layers Hn Hx HP.
  destruct (Nat.eq_dec x w) as [-> | Hne].
  - rewrite scan_row_done by lia. assumption.
  - assert (Hlt : x < w) by lia.
    destruct (px x y) as [[[r g] b] a] eqn:Hp.
    destruct (N.eq_dec a 0) as [Hz | Hnz].
    + rewrite scan_row_skip by (try rewrite Hp; assumption).
      apply (IH (w - S x)); try lia.
      apply P_skip; try assumption. rewrite Hp. assumption.
    + rewrite (scan_row_run w px y x layers r g b a) by assumption.
      pose proof (extend_run_advances w px y x r g b a Hlt Hp Hnz) as Hadv.
      pose proof (extend_run_end w px y (r, g, b) x) as Hend.
      assert (Hle : extend_run w px y (r, g, b) x <= w).
      { destruct Hend as (_ & _ & _ & Hw). apply Hw. lia. }
      apply (IH (w - extend_run w px y (r, g, b) x)); try lia.
      apply (P_run y x layers r g b a); auto.
Qed.

Lemma scan_rows_rule n y layers :
  y + n <= h -> P y 0 layers ->
  P (y + n) 0 (scan_rows w px (seq y n) layers).
Proof.
  revert y layers. induction n as [| n IH]; intros y layers Hy HP.
  - rewrite Nat.add_0_r. assumption.
  - cbn. replace (y + S n) with (S y + n) by lia.
    apply IH; [lia |].
    apply P_row; [lia |].
    apply scan_row_rule; [lia | lia | assumption].
Qed.

Lemma extract_layers_rule :
  P 0 0 [] -> P h 0 (extract_layers w h px).
Proof.
  intros H0. apply (scan_rows_rule h 0 []); [lia | assumption].
Qed.

End ScanRule.

(** ** The dictionary operation *)

Lemma emitted_under_setdefault layers k rc k' rc' :
  emitted_under (setdefault_append layers k rc) k' rc' <->
  emitted_under layers k' rc' \/ (k' = k /\ rc' = rc).
Proof.
  unfold emitted_under. induction layers as [| [k0 rects0] rest IH]; cbn.
  - split.
    + intros (rects & [E | []] & Hin). inversion E; subst.
      destruct Hin as [-> | []]. right. split; reflexivity.
    + intros [(rects & [] & _) | (-> & ->)].
      exists [rc]. split; left; reflexivity.
  - destruct (String.eqb_spec k0 k) as [-> | Hne].
    + split.
      * intros (rects & [E | Hin] & Hrc).
        -- inversion E; subst. apply in_app_or in Hrc.
           destruct Hrc as [Hrc | [-> | []]].
           ++ left. exists rects0. split; [left; reflexivity | assumption].
           ++ right. split; reflexivity.
        -- left. exists rects. split; [right |]; assumption.
      * intros [(rects & [E | Hin] & Hrc) | (-> & ->)].
        -- inversion E; subst. exists (rects ++ [rc]).
           split; [left; reflexivity | apply in_or_app; left; assumption].
        -- exists rects. split; [right |]; assumption.
        -- exists (rects0 ++ [rc]).
           split; [left; reflexivity |].
           apply in_or_app. right. left. reflexivity.
    + split.
      * intros (rects & [E | Hin] & Hrc).
        -- left. exists rects. split; [left |]; assumption.
        -- destruct (proj1 IH) as [(rs & H1 & H2) | H];
             [exists rects; split; assumption | | right; assumption].
           left. exists rs. split; [right |]; assumption.
      * intros [(rects & [E | Hin] & Hrc) | H].
        -- exists rects. split; [left |]; assumption.
        -- destruct (proj2 IH) as (rs & H1 & H2);
             [left; exists rects; split; assumption |].
           exists rs. split; [right |]; assumption.
        -- destruct (proj2 IH) as (rs & H1 & H2); [right; assumption |].
           exists rs. split; [right |]; assumption.
Qed.

Lemma cover_count_setdefault layers k rc x y :
  cover_count (setdefault_append layers k rc) x y =
  cover_count layers x y + (if coversb rc x y then 1 else 0).
Proof.
  unfold cover_count, emitted.
  induction layers as [| [k0 rects0] rest IH]; cbn.
  - destruct (coversb rc x y); reflexivity.
  - destruct (String.eqb k0 k); cbn.
    + rewrite !filter_app, !length_app. cbn.
      destruct (coversb rc x y); cbn; lia.
    + rewrite !filter_app, !length_app, IH. lia.
Qed.

Lemma coversb_covers rc x y : coversb rc x y = true <-> covers rc x y.
Proof.
  destruct rc as [[[x0 y0] rw] rh]. unfold coversb, covers.
  rewrite !andb_true_iff, !Nat.leb_le, !Nat.ltb_lt. tauto.
Qed.

(** What holds of every group before the dictionary operation carries
    over to every group after it, when it carries over to a group left
    alone, to the group that grows by [rc] and to the new group. *)
Lemma setdefault_append_Forall (Q Q' : string * list rect -> Prop)
  layers k rc :
  Forall Q layers ->
  (forall g, Q g -> Q' g) ->
  (forall rects, Q (k, rects) -> Q' (k, rects ++ [rc])) ->
  Q' (k, [rc]) ->
  Forall Q' (setdefault_append layers k rc).
Proof.
  intros HF Hkeep Hgrow Hnew.
  induction HF as [| [k0 rects0] rest Hg HF IH]; cbn.
  - constructor; [assumption | constructor].
  - destruct (String.eqb_spec k0 k) as [-> | Hne].
    + constructor; [apply Hgrow; assumption |].
      apply (Forall_impl Q' Hkeep). assumption.
    + constructor; [apply Hkeep |]; assumption.
Qed.

Lemma setdefault_append_keys_old layers k rc :
  In k (map fst layers) ->
  map fst (setdefault_append layers k rc) = map fst layers.
Proof.
  induction layers as [| [k0 rects0] rest IH]; cbn; [intros [] |].
  intros Hin. destruct (String.eqb_spec k0 k) as [-> | Hne]; [reflexivity |].
  cbn. f_equal. apply IH. destruct Hin; [contradiction | assumption].
Qed.

Lemma setdefault_append_keys_new layers k rc :
  ~ In k (map fst layers) ->
  map fst (setdefault_append layers k rc) = map fst layers ++ [k].
Proof.
  induction layers as [| [k0 rects0] rest IH]; cbn; [reflexivity |].
  intros Hnin. destruct (String.eqb_spec k0 k) as [-> | Hne]; [tauto |].
  cbn. f_equal. apply IH. tauto.
Qed.

Lemma setdefault_append_NoDup layers k rc :
  NoDup (map fst layers) -> NoDup (map fst (setdefault_append layers k rc)).
Proof.
  intros Hnd.
  destruct (in_dec string_dec k (map fst layers)) as [Hin | Hnin].
  - rewrite setdefault_append_keys_old; assumption.
  - rewrite setdefault_append_keys_new by assumption.
    apply NoDup_app; [assumption | repeat constructor; intros [] |].
    intros a Ha [<- | []]. contradiction.
Qed.

(** ** Every stored rectangle is a maximal run *)

Lemma emitted_maximal w h px k rc :
  emitted_under (extract_layers w h px) k rc -> maximal_run w h px k rc.
Proof.
  revert k rc.
  apply (extract_layers_rule w h px
           (fun _ _ layers => forall k rc,
              emitted_under layers k rc -> maximal_run w h px k rc)).
  - auto.
  - intros y x layers r g b a x1 Hy Hx Hp Hnz Hx1 Hb Hend IH k rc Hin.
    apply emitted_under_setdefault in Hin.
    destruct Hin as [Hin | [-> ->]]; [auto |].
    destruct Hend as (_ & Hin & Hstop & _).
    unfold maximal_run. repeat (split; [lia |]).
    exists (r, g, b). split; [reflexivity |]. split.
    + intros x' Hx'. apply run_breaks_false. apply Hin. lia.
    + replace (x + (x1 - x)) with x1 by lia.
      destruct (Nat.eq_dec x1 w) as [E | Hne]; [left; assumption | right].
      apply run_breaks_true. apply Hstop. lia.
  - auto.
  - intros k rc (rects & [] & _).
Qed.

(** ** Each visible pixel is painted once *)

Ltac bool_cases :=
  repeat match goal with
    | |- context [?a <? ?b] => destruct (Nat.ltb_spec a b)
    | |- context [?a <=? ?b] => destruct (Nat.leb_spec a b)
    | |- context [?a =? ?b] => destruct (Nat.eqb_spec a b)
    end.

Lemma visible_true p : visible p = true <-> alpha_of p <> 0%N.
Proof.
  unfold visible. rewrite negb_true_iff. apply N.eqb_neq.
Qed.

Lemma visible_false p : visible p = false <-> alpha_of p = 0%N.
Proof.
  unfold visible. rewrite negb_false_iff. apply N.eqb_eq.
Qed.

Lemma cover_count_scan w h px x' y' :
  x' < w -> y' < h ->
  cover_count (extract_layers w h px) x' y' =
  if visible (px x' y') then 1 else 0.
Proof.
  intros Hx' Hy'.
  enough (H : forall x' y', x' < w -> y' < h ->
            cover_count (extract_layers w h px) x' y' =
            if scannedb h 0 y' x' && visible (px x' y') then 1 else 0).
  { rewrite H by assumption. unfold scannedb.
    apply Nat.ltb_lt in Hy'. rewrite Hy'. reflexivity. }
  clear x' y' Hx' Hy'.
  apply (extract_layers_rule w h px
           (fun y x layers => forall x' y', x' < w -> y' < h ->
              cover_count layers x' y' =
              if scannedb y x y' x' && visible (px x' y') then 1 else 0)).
  - intros y x layers Hy Hx Ha IH x' y' Hx' Hy'.
    rewrite IH by assumption. unfold scannedb.
    destruct (Nat.eq_dec y' y) as [-> | Hne].
    + destruct (Nat.eq_dec x' x) as [-> | Hnx].
      * apply visible_false in Ha. rewrite Ha, !andb_false_r. reflexivity.
      * bool_cases; try lia; reflexivity.
    + bool_cases; try lia; reflexivity.
  - intros y x layers r g b a x1 Hy Hx Hp Hnz Hx1 Hb Hend IH x' y' Hx' Hy'.
    rewrite cover_count_setdefault, IH by assumption.
    destruct Hend as (_ & Hin & _ & _).
    unfold scannedb, coversb.
    destruct (Nat.eq_dec y' y) as [-> | Hne].
    + destruct (Nat.lt_ge_cases x' x) as [Hl | Hg].
      * bool_cases; try lia; cbn; lia.
      * destruct (Nat.lt_ge_cases x' x1) as [Hl1 | Hg1].
        -- assert (Hv : visible (px x' y) = true).
           { apply visible_true.
             apply (run_breaks_false (px x' y) (r, g, b)). apply Hin. lia. }
           rewrite Hv. bool_cases; try lia; reflexivity.
        -- bool_cases; try lia; cbn; lia.
    + bool_cases; try lia; cbn; lia.
  - intros y layers Hy IH x' y' Hx' Hy'.
    rewrite IH by assumption. unfold scannedb.
    bool_cases; try lia; reflexivity.
  - intros x' y' _ _. unfold scannedb.
    bool_cases; try lia; reflexivity.
Qed.

(** ** Each visible pixel is painted under the key of its colour *)

Lemma covered_under_key w h px x' y' :
  x' < w -> y' < h -> alpha_of (px x' y') <> 0%N ->
  exists rc,
    emitted_under (extract_layers w h px) (key_of (rgb_of (px x' y'))) rc /\
    covers rc x' y'.
Proof.
  intros Hx' Hy' Hv.
  enough (H : forall x' y', x' < w -> y' < h -> scanned h 0 y' x' ->
            alpha_of (px x' y') <> 0%N ->
            exists rc,
              emitted_under (extract_layers w h px)
                (key_of (rgb_of (px x' y'))) rc /\ covers rc x' y').
  { apply H; try assumption. left. assumption. }
  clear x' y' Hx' Hy' Hv.
  apply (extract_layers_rule w h px
           (fun y x layers => forall x' y', x' < w -> y' < h ->
              scanned y x y' x' -> alpha_of (px x' y') <> 0%N ->
              exists rc,
                emitted_under layers (key_of (rgb_of (px x' y'))) rc /\
                covers rc x' y')).
  - intros y x layers Hy Hx Ha IH x' y' Hx' Hy' Hs Hv.
    apply IH; try assumption.
    destruct Hs as [Hs | [-> Hs]]; [left; assumption |].
    destruct (Nat.eq_dec x' x) as [-> | Hne]; [contradiction |].
    right. split; [reflexivity | lia].
  - intros y x layers r g b a x1 Hy Hx Hp Hnz Hx1 Hb Hend IH x' y' Hx' Hy'
      Hs Hv.
    assert (Hold : scanned y x y' x' \/ (y' = y /\ x <= x' < x1)).
    { destruct Hs as [Hs | [-> Hs]]; [left; left; assumption |].
      destruct (Nat.lt_ge_cases x' x);
        [left; right; split; [reflexivity | assumption] | right; lia]. }
    destruct Hold as [Hold | [-> Hnew]].
    + destruct (IH x' y' Hx' Hy' Hold Hv) as (rc & Hin & Hc).
      exists rc. split; [| assumption].
      apply emitted_under_setdefault. left. assumption.
    + exists (x, y, x1 - x, 1). split.
      * apply emitted_under_setdefault. right. split; [| reflexivity].
        destruct Hend as (_ & Hin & _ & _).
        destruct (Hin x' Hnew) as [_ Hbr].
        apply run_breaks_false in Hbr. destruct Hbr as [_ ->]. reflexivity.
      * unfold covers. lia.
  - intros y layers Hy IH x' y' Hx' Hy' Hs Hv.
    apply IH; try assumption.
    destruct Hs as [Hs | [_ Hs]]; [| lia].
    destruct (Nat.eq_dec y' y) as [-> | Hne];
      [right; split; [reflexivity | assumption] | left; lia].
  - intros x' y' _ _ [Hs | [_ Hs]]; lia.
Qed.

(** ** Colour keys tell 8-bit colours apart *)

Lemma format_02x_channel n :
  channel_ok n ->
  unhex (format_02x n) = n /\ String.length (format_02x n) = 2.
Proof.
  intros Hn. unfold channel_ok in Hn.
  assert (Hall : forallb
            (fun i => (unhex (format_02x (N.of_nat i)) =? N.of_nat i)%N
                      && (String.length (format_02x (N.of_nat i)) =? 2))
            (seq 0 256) = true) by (vm_compute; reflexivity).
  rewrite forallb_forall in Hall.
  specialize (Hall (N.to_nat n)).
  rewrite N2Nat.id in Hall.
  destruct (andb_prop _ _ (Hall ltac:(apply in_seq; lia))) as [H1 H2].
  split; [apply N.eqb_eq | apply Nat.eqb_eq]; assumption.
Qed.

Lemma string_app_inj (s1 s2 t1 t2 : string) :
  String.length s1 = String.length s2 ->
  (s1 ++ t1)%string = (s2 ++ t2)%string -> s1 = s2 /\ t1 = t2.
Proof.
  revert s2. induction s1 as [| a s1 IH]; intros [| b s2] Hl E;
    try discriminate.
  - split; [reflexivity | assumption].
  - cbn in *. inversion E; subst.
    destruct (IH s2) as [-> ->]; [lia | assumption |].
    split; reflexivity.
Qed.

Lemma format_02x_inj n m :
  channel_ok n -> channel_ok m -> format_02x n = format_02x m -> n = m.
Proof.
  intros Hn Hm E.
  destruct (format_02x_channel n Hn) as [<- _].
  destruct (format_02x_channel m Hm) as [<- _].
  rewrite E. reflexivity.
Qed.

Lemma key_of_inj c c' : rgb_ok c -> rgb_ok c' -> key_of c = key_of c' -> c = c'.
Proof.
  destruct c as [[r g] b], c' as [[r' g'] b'].
  intros (Hr & Hg & Hb) (Hr' & Hg' & Hb') E.
  unfold key_of, color_key in E. cbn [append] in E.
  inversion E as [E1]. clear E.
  pose proof (proj2 (format_02x_channel r Hr)) as Lr.
  pose proof (proj2 (format_02x_channel r' Hr')) as Lr'.
  pose proof (proj2 (format_02x_channel g Hg)) as Lg.
  pose proof (proj2 (format_02x_channel g' Hg')) as Lg'.
  apply string_app_inj in E1; [| congruence]. destruct E1 as [Er E2].
  apply string_app_inj in E2; [| congruence]. destruct E2 as [Eg Eb].
  apply format_02x_inj in Er, Eg, Eb; try assumption. congruence.
Qed.

(** ** The order of groups and of the runs in a group *)

Lemma StronglySorted_snoc {A} (R : A -> A -> Prop) l a :
  StronglySorted R l -> Forall (fun b => R b a) l ->
  StronglySorted R (l ++ [a]).
Proof.
  induction 1 as [| b l Hs IH Hb]; intros Hall; cbn.
  - repeat constructor.
  - inversion Hall; subst. constructor; [apply IH; assumption |].
    apply Forall_app. split; [assumption |]. repeat constructor. assumption.
Qed.

Lemma setdefault_append_ordered layers k rc :
  Forall (fun g => snd g <> [] /\ Forall (fun r => scan_lt r rc) (snd g))
    layers ->
  StronglySorted group_before layers ->
  StronglySorted group_before (setdefault_append layers k rc).
Proof.
  intros Hall Hss. induction Hss as [| g rest Hss IH Hg]; cbn.
  - repeat constructor.
  - inversion Hall as [| ? ? [Hne Hlt] Hall']; subst.
    destruct g as [k0 rects0]. cbn in Hne, Hlt.
    destruct (String.eqb_spec k0 k) as [-> | Hk].
    + constructor; [assumption |].
      apply (Forall_impl _ (P := group_before (k, rects0))); [| assumption].
      intros g' (rc1 & Hin & Hb). exists rc1. split; [| assumption].
      cbn. apply in_or_app. left. assumption.
    + constructor; [apply IH; assumption |].
      apply (setdefault_append_Forall (group_before (k0, rects0))
               (group_before (k0, rects0))); auto.
      * intros rects (rc1 & Hin & Hb). exists rc1. split; [assumption |].
        cbn. intros rc2 Hin2. apply in_app_or in Hin2.
        destruct Hin2 as [Hin2 | [<- | []]]; [apply Hb; assumption |].
        rewrite Forall_forall in Hlt. apply Hlt. assumption.
      * destruct rects0 as [| rc1 rects0]; [contradiction |].
        exists rc1. split; [left; reflexivity |].
        intros rc2 [<- | []]. inversion Hlt. assumption.
Qed.

Lemma before_pos_mono y x y' x' rc :
  scanned y' x' y x \/ (y = y' /\ x <= x') ->
  before_pos y x rc -> before_pos y' x' rc.
Proof.
  destruct rc as [[[x0 y0] rw] rh]. unfold scanned, before_pos. lia.
Qed.

Lemma ordered_upto_mono y x y' x' layers :
  scanned y' x' y x \/ (y = y' /\ x <= x') ->
  ordered_upto y x layers -> ordered_upto y' x' layers.
Proof.
  intros Hpos (Hall & Hss & Hnd). split; [| split; assumption].
  apply (Forall_impl _ (P := fun g => snd g <> [] /\
           StronglySorted scan_lt (snd g) /\
           Forall (before_pos y x) (snd g))); [| assumption].
  intros g (Hne & Hs & Hb). split; [assumption | split; [assumption |]].
  apply (Forall_impl _ (P := before_pos y x)); [| assumption].
  intros rc. apply before_pos_mono. assumption.
Qed.

Lemma ordered_scan w h px : ordered_upto h 0 (extract_layers w h px).
Proof.
  apply (extract_layers_rule w h px ordered_upto).
  - intros y x layers _ _ _. apply ordered_upto_mono.
    right. split; [reflexivity | lia].
  - intros y x layers r g b a x1 Hy Hx Hp Hnz Hx1 Hb Hend (Hall & Hss & Hnd).
    assert (Hrc : forall rc, before_pos y x rc -> scan_lt rc (x, y, x1 - x, 1)).
    { intros [[[x0 y0] rw] rh]. cbn. tauto. }
    split; [| split].
    + apply (setdefault_append_Forall _ _ layers _ _ Hall).
      * intros g' (Hne & Hs & Hbp). split; [assumption | split; [assumption |]].
        apply (Forall_impl _ (P := before_pos y x)); [| assumption].
        intros rc. apply before_pos_mono. right. split; [reflexivity | lia].
      * cbn. intros rects (Hne & Hs & Hbp). split; [| split].
        -- destruct rects; discriminate.
        -- apply StronglySorted_snoc; [assumption |].
           apply (Forall_impl _ (P := before_pos y x)); assumption.
        -- apply Forall_app. split.
           ++ apply (Forall_impl _ (P := before_pos y x)); [| assumption].
              intros rc. apply before_pos_mono.
              right. split; [reflexivity | lia].
           ++ constructor; [| constructor]. cbn. lia.
      * cbn. split; [discriminate |]. split.
        -- constructor; constructor.
        -- constructor; [| constructor]. cbn. lia.
    + apply setdefault_append_ordered; [| assumption].
      apply (Forall_impl _ (P := fun g => snd g <> [] /\
               StronglySorted scan_lt (snd g) /\
               Forall (before_pos y x) (snd g))); [| assumption].
      intros g' (Hne & _ & Hbp). split; [assumption |].
      apply (Forall_impl _ (P := before_pos y x)); assumption.
    + apply setdefault_append_NoDup. assumption.
  - intros y layers _. apply ordered_upto_mono.
    left. left. lia.
  - split; [constructor | split; constructor].
Qed.

(** ** The scan reads colours and transparency, nothing else *)

Section AlphaBlind.

Variables (w h : nat) (px px' : nat -> nat -> pixel).
Hypothesis Hsame : same_up_to_alpha w h px px'.

Lemma run_breaks_blind x y c :
  x < w -> y < h -> run_breaks (px x y) c = run_breaks (px' x y) c.
Proof.
  intros Hx Hy. destruct (Hsame x y Hx Hy) as [Hz Hrgb].
  destruct (run_breaks (px' x y) c) eqn:E.
  - apply run_breaks_true. apply run_breaks_true in E.
    destruct (N.eq_dec (alpha_of (px x y)) 0) as [Ha | Ha];
      [left; assumption | right].
    destruct E as [E | E]; [apply Hz in E; contradiction |].
    rewrite (Hrgb Ha). assumption.
  - apply run_breaks_false. apply run_breaks_false in E.
    destruct E as [Ha <-].
    assert (Ha' : alpha_of (px x y) <> 0%N) by tauto.
    split; [assumption | apply Hrgb; assumption].
Qed.

Lemma extend_run_blind y c x :
  y < h -> extend_run w px y c x = extend_run w px' y c x.
Proof.
  intros Hy. remember (w - x) as n eqn:Hn. revert x Hn.
  induction n as [n IH] using lt_wf_ind. intros x Hn.
  rewrite (extend_run_eq w px), (extend_run_eq w px').
  destruct (Nat.ltb_spec x w) as [Hlt | Hge]; [| reflexivity].
  rewrite run_breaks_blind by assumption.
  destruct (run_breaks (px' x y) c); [reflexivity |].
  apply (IH (w - S x)); lia.
Qed.

Lemma scan_row_blind y x layers :
  y < h -> scan_row w px y x layers = scan_row w px' y x layers.
Proof.
  intros Hy. remember (w - x) as n eqn:Hn. revert x layers Hn.
  induction n as [n IH] using lt_wf_ind. intros x layers Hn.
  destruct (Nat.lt_ge_cases x w) as [Hlt | Hge].
  - destruct (Hsame x y Hlt Hy) as [Hz Hrgb].
    destruct (px x y) as [[[r g] b] a] eqn:Hp.
    destruct (px' x y) as [[[r' g'] b'] a'] eqn:Hp'.
    cbn in Hz, Hrgb.
    destruct (N.eq_dec a 0) as [Ha | Ha].
    + rewrite (scan_row_skip w px), (scan_row_skip w px');
        try assumption; try (rewrite ?Hp, ?Hp'; cbn; tauto).
      apply (IH (w - S x)); lia.
    + assert (Ha' : a' <> 0%N) by tauto.
      specialize (Hrgb Ha). inversion Hrgb; subst r' g' b'.
      rewrite (scan_row_run w px y x layers r g b a) by assumption.
      rewrite (scan_row_run w px' y x layers r g b a') by assumption.
      rewrite <- extend_run_blind by assumption.
      pose proof (extend_run_advances w px y x r g b a Hlt Hp Ha).
      apply (IH (w - extend_run w px y (r, g, b) x)); lia.
  - rewrite !scan_row_done by assumption. reflexivity.
Qed.

Lemma scan_rows_blind n y layers :
  y + n <= h ->
  scan_rows w px (seq y n) layers = scan_rows w px' (seq y n) layers.
Proof.
  revert y layers. induction n as [| n IH]; intros y layers Hy;
    [reflexivity |].
  cbn. rewrite scan_row_blind by lia. apply IH. lia.
Qed.

Lemma extract_layers_blind :
  extract_layers w h px = extract_layers w h px'.
Proof.
  apply (scan_rows_blind h 0 []). lia.
Qed.

End AlphaBlind.

(** ** The text of the document *)

Lemma string_app_nil_r (s : string) : (s ++ EmptyString)%string = s.
Proof.
  induction s as [| a s IH]; cbn; [| rewrite IH]; reflexivity.
Qed.

Lemma string_app_assoc (s t u : string) :
  ((s ++ t) ++ u)%string = (s ++ t ++ u)%string.
Proof.
  induction s as [| a s IH]; cbn; [| rewrite IH]; reflexivity.
Qed.

Lemma concat_cons (s : string) (l : list string) :
  String.concat EmptyString (s :: l) =
  (s ++ String.concat EmptyString l)%string.
Proof.
  destruct l as [| t l]; cbn; [rewrite string_app_nil_r |]; reflexivity.
Qed.

Lemma write_rects_text f rects :
  write_rects f rects =
  (f ++ String.concat EmptyString (map rect_line rects))%string.
Proof.
  unfold write_rects. revert f.
  induction rects as [| rc rects IH]; intros f.
  - cbn. rewrite string_app_nil_r. reflexivity.
  - cbn [fold_left map]. rewrite IH, concat_cons. unfold write.
    apply string_app_assoc.
Qed.

Lemma write_group_text f g : write_group f g = (f ++ group_text g)%string.
Proof.
  destruct g as [color rects]. unfold write_group, group_text, write.
  rewrite write_rects_text. cbn [fst snd].
  rewrite !string_app_assoc. reflexivity.
Qed.

Lemma write_groups_text f layers :
  fold_left write_group layers f =
  (f ++ String.concat EmptyString (map group_text layers))%string.
Proof.
  revert f. induction layers as [| g layers IH]; intros f.
  - cbn. rewrite string_app_nil_r. reflexivity.
  - cbn [fold_left map]. rewrite IH, concat_cons, write_group_text.
    apply string_app_assoc.
Qed.

Lemma write_svg_text w h layers :
  write_svg w h layers =
  (svg_open w h ++ String.concat EmptyString (map group_text layers)
   ++ svg_close)%string.
Proof.
  unfold write_svg, write. rewrite write_groups_text. cbn [append].
  apply string_app_assoc.
Qed.

Lemma emitted_In layers rc :
  In rc (emitted layers) <-> exists k, emitted_under layers k rc.
Proof.
  unfold emitted, emitted_under. rewrite in_concat. split.
  - intros (rects & Hin & Hrc). apply in_map_iff in Hin.
    destruct Hin as ([k rs] & E & Hin). cbn in E. subst rs.
    exists k, rects. split; assumption.
  - intros (k & rects & Hin & Hrc). exists rects. split; [| assumption].
    apply in_map_iff. exists (k, rects). split; [reflexivity | assumption].
Qed.

Lemma cover_count_zero layers x y :
  cover_count layers x y = 0 <->
  forall rc, In rc (emitted layers) -> ~ covers rc x y.
Proof.
  unfold cover_count. split.
  - intros H0 rc Hin Hc. apply coversb_covers in Hc.
    assert (Hf : In rc (filter (fun rc => coversb rc x y) (emitted layers)))
      by (apply filter_In; split; assumption).
    destruct (filter _ _); [destruct Hf | discriminate].
  - intros Hno.
    destruct (filter (fun rc => coversb rc x y) (emitted layers))
      as [| rc l] eqn:E; [reflexivity |].
    assert (Hf : In rc (filter (fun rc => coversb rc x y) (emitted layers)))
      by (rewrite E; left; reflexivity).
    apply filter_In in Hf. destruct Hf as [Hin Hc].
    apply coversb_covers in Hc. destruct (Hno rc Hin Hc).
Qed.

(** * Main theorems *)

(** C1. Every pixel with non-zero alpha is painted by exactly one of the
    emitted rectangles and a pixel with alpha zero by none; and, the colour
    channels being 8-bit values, for each colour the pixels painted by the
    rectangles stored under its key are exactly the non-transparent pixels
    of that colour. *)
Theorem coverage_exact w h px :
  (forall x y, x < w -> y < h -> alpha_of (px x y) <> 0%N ->
     cover_count (extract_layers w h px) x y = 1) /\
  (forall x y, x < w -> y < h -> alpha_of (px x y) = 0%N ->
     forall rc, In rc (emitted (extract_layers w h px)) -> ~ covers rc x y) /\
  (image_ok w h px ->
   forall c, rgb_ok c -> forall x y,
     (exists rc, emitted_under (extract_layers w h px) (key_of c) rc /\
                 covers rc x y) <->
     (x < w /\ y < h /\ alpha_of (px x y) <> 0%N /\ rgb_of (px x y) = c)).
Proof.
  split; [| split; [| intros Hok]].
  - intros x y Hx Hy Ha. rewrite cover_count_scan by assumption.
    apply visible_true in Ha. rewrite Ha. reflexivity.
  - intros x y Hx Hy Ha. apply cover_count_zero.
    rewrite cover_count_scan by assumption.
    apply visible_false in Ha. rewrite Ha. reflexivity.
  - intros c Hc x y. split.
    + intros ([[[x0 y0] rw] rh] & Hin & Hcov).
      apply emitted_maximal in Hin.
      destruct Hin as (-> & Hrw & Hxw & Hyh & c0 & Hk & Hrun & _).
      destruct Hcov as [Hcx Hcy].
      assert (y = y0) by lia. subst y0.
      destruct (Hrun x Hcx) as [Hv Hrgb].
      assert (Hx : x < w) by lia.
      repeat (split; [assumption |]).
      rewrite Hrgb. symmetry. apply key_of_inj; try assumption.
      rewrite <- Hrgb. apply Hok; assumption.
    + intros (Hx & Hy & Hv & <-). apply covered_under_key; assumption.
Qed.

(** C2. Every emitted rectangle has height exactly 1 and width at
    least 1. *)
Theorem rect_shape w h px x0 y rw rh :
  In (x0, y, rw, rh) (emitted (extract_layers w h px)) ->
  rh = 1 /\ 1 <= rw.
Proof.
  intros Hin. apply emitted_In in Hin. destruct Hin as (k & Hin).
  apply emitted_maximal in Hin. destruct Hin as (Hh & Hw & _).
  split; assumption.
Qed.

(** C3. Every emitted run is maximal to the right: the run that starts at
    [(x0, y)] under the key of [(r, g, b)] lies on non-transparent pixels
    of exactly that colour, and it ends where the row ends or in front of
    a pixel that is transparent or of another colour; it stays in its row. *)
Theorem runs_maximal w h px k x0 y rw rh :
  emitted_under (extract_layers w h px) k (x0, y, rw, rh) ->
  exists r g b,
    k = color_key r g b /\
    (forall x, x0 <= x < x0 + rw ->
       alpha_of (px x y) <> 0%N /\ rgb_of (px x y) = (r, g, b)) /\
    (x0 + rw = w \/
     (x0 + rw < w /\
      (alpha_of (px (x0 + rw) y) = 0%N \/
       rgb_of (px (x0 + rw) y) <> (r, g, b)))) /\
    rh = 1 /\ x0 + rw <= w /\ y < h.
Proof.
  intros Hin. apply emitted_maximal in Hin.
  destruct Hin as (Hh & Hw & Hxw & Hyh & [[r g] b] & Hk & Hrun & Hstop).
  exists r, g, b. repeat (split; [assumption |]).
  split; [| repeat split; assumption].
  destruct Hstop as [E | Hs]; [left; assumption |].
  destruct (Nat.eq_dec (x0 + rw) w) as [E | Hne]; [left; assumption |].
  right. split; [lia | assumption].
Qed.

(** C4. The 3x1 image red, red, blue (all opaque) gives two groups: fill
    [#ff0000] with the one rectangle x=0, y=0, width=2, height=1, then fill
    [#0000ff] with the one rectangle x=2, y=0, width=1, height=1. *)
Theorem red_red_blue_output :
  extract_layers 3 1 red_red_blue =
    [("#ff0000", [(0, 0, 2, 1)]); ("#0000ff", [(2, 0, 1, 1)])] /\
  png2svg 3 1 red_red_blue =
    ("<svg xmlns=" ++ dquote ++ "http://www.w3.org/2000/svg" ++ dquote
     ++ " viewBox=" ++ dquote ++ "0 0 3 1" ++ dquote
     ++ " shape-rendering=" ++ dquote ++ "crispEdges" ++ dquote ++ ">"
     ++ newline
     ++ "  <g fill=" ++ dquote ++ "#ff0000" ++ dquote ++ ">" ++ newline
     ++ "    <rect x=" ++ dquote ++ "0" ++ dquote
     ++ " y=" ++ dquote ++ "0" ++ dquote
     ++ " width=" ++ dquote ++ "2" ++ dquote
     ++ " height=" ++ dquote ++ "1" ++ dquote ++ "/>" ++ newline
     ++ "  </g>" ++ newline
     ++ "  <g fill=" ++ dquote ++ "#0000ff" ++ dquote ++ ">" ++ newline
     ++ "    <rect x=" ++ dquote ++ "2" ++ dquote
     ++ " y=" ++ dquote ++ "0" ++ dquote
     ++ " width=" ++ dquote ++ "1" ++ dquote
     ++ " height=" ++ dquote ++ "1" ++ dquote ++ "/>" ++ newline
     ++ "  </g>" ++ newline
     ++ "</svg>" ++ newline)%string.
Proof.
  split; vm_compute; reflexivity.
Qed.


(** C8. The document is a function of the pixel grid alone: two images of
    the same size with the same pixels give the same text, character for
    character, whatever lies outside of the grid. *)
Theorem output_deterministic w h px px' :
  (forall x y, x < w -> y < h -> px x y = px' x y) ->
  png2svg w h px = png2svg w h px'.
Proof.
  intros Heq. unfold png2svg. f_equal.
  apply extract_layers_blind. intros x y Hx Hy.
  rewrite (Heq x y Hx Hy). split; [reflexivity | intros _; reflexivity].
Qed.

(** C9. Every emitted rectangle lies inside the image: for a rectangle
    (x, y, width, height) of a W x H image, 0 <= x, x + width <= W,
    0 <= y < H and y + height <= H. *)
Theorem rect_in_bounds w h px x0 y rw rh :
  In (x0, y, rw, rh) (emitted (extract_layers w h px)) ->
  0 <= x0 /\ x0 + rw <= w /\ 0 <= y < h /\ y + rh <= h.
Proof.
  intros Hin. apply emitted_In in Hin. destruct Hin as (k & Hin).
  apply emitted_maximal in Hin. destruct Hin as (Hh & _ & Hxw & Hyh & _).
  lia.
Qed.

(** * The theorems at concrete images *)

Lemma coverage_exact_witness :
  image_ok 3 1 red_red_blue /\
  cover_count (extract_layers 3 1 red_red_blue) 1 0 = 1 /\
  (exists rc, emitted_under (extract_layers 3 1 red_red_blue)
                (key_of (0, 0, 255)%N) rc /\ covers rc 2 0).
Proof.
  assert (Hok : image_ok 3 1 red_red_blue).
  { intros x y Hx Hy. destruct y as [| y]; [| lia].
    destruct x as [| [| [| x]]]; [| | | lia];
      vm_compute; repeat split; reflexivity. }
  split; [exact Hok |].
  destruct (coverage_exact 3 1 red_red_blue) as (Hone & _ & Hcol).
  split.
  - apply Hone; [lia | lia | vm_compute; discriminate].
  - apply (Hcol Hok (0, 0, 255)%N).
    + vm_compute. repeat split; reflexivity.
    + split; [lia | split; [lia | split]];
        [vm_compute; discriminate | reflexivity].
Defined.

Lemma rect_shape_witness :
  In (0, 0, 2, 1) (emitted (extract_layers 3 1 red_red_blue)) /\
  (1 = 1 /\ 1 <= 2).
Proof.
  assert (Hin : In (0, 0, 2, 1) (emitted (extract_layers 3 1 red_red_blue)))
    by (vm_compute; left; reflexivity).
  split; [exact Hin | exact (rect_shape 3 1 red_red_blue 0 0 2 1 Hin)].
Defined.

Lemma runs_maximal_witness :
  emitted_under (extract_layers 3 1 red_red_blue) "#ff0000" (0, 0, 2, 1) /\
  exists r g b,
    "#ff0000" = color_key r g b /\
    (forall x, 0 <= x < 0 + 2 ->
       alpha_of (red_red_blue x 0) <> 0%N /\
       rgb_of (red_red_blue x 0) = (r, g, b)) /\
    (0 + 2 = 3 \/
     (0 + 2 < 3 /\
      (alpha_of (red_red_blue (0 + 2) 0) = 0%N \/
       rgb_of (red_red_blue (0 + 2) 0) <> (r, g, b)))) /\
    1 = 1 /\ 0 + 2 <= 3 /\ 0 < 1.
Proof.
  assert (Hin : emitted_under (extract_layers 3 1 red_red_blue)
                  "#ff0000" (0, 0, 2, 1)).
  { exists [(0, 0, 2, 1)]. split; vm_compute; left; reflexivity. }
  split; [exact Hin |].
  exact (runs_maximal 3 1 red_red_blue "#ff0000" 0 0 2 1 Hin).
Defined.


Lemma output_deterministic_witness :
  (forall x y, x < 3 -> y < 1 ->
     red_red_blue x y = red_red_blue_padded x y) /\
  red_red_blue 3 0 <> red_red_blue_padded 3 0 /\
  png2svg 3 1 red_red_blue = png2svg 3 1 red_red_blue_padded.
Proof.
  assert (Heq : forall x y, x < 3 -> y < 1 ->
                  red_red_blue x y = red_red_blue_padded x y).
  { intros x y Hx Hy. destruct y as [| y]; [| lia].
    destruct x as [| [| [| x]]]; [| | | lia]; reflexivity. }
  split; [exact Heq |]. split; [vm_compute; discriminate |].
  exact (output_deterministic 3 1 red_red_blue red_red_blue_padded Heq).
Defined.

Lemma rect_in_bounds_witness :
  In (2, 0, 1, 1) (emitted (extract_layers 3 1 red_red_blue)) /\
  (0 <= 2 /\ 2 + 1 <= 3 /\ 0 <= 0 < 1 /\ 0 + 1 <= 1).
Proof.
  assert (Hin : In (2, 0, 1, 1) (emitted (extract_layers 3 1 red_red_blue)))
    by (vm_compute; right; left; reflexivity).
  split; [exact Hin | exact (rect_in_bounds 3 1 red_red_blue 2 0 1 1 Hin)].
Defined.

(** * Further properties of the script *)

(** ** Colour keys *)

Lemma all_chars_app f (s t : string) :
  all_chars f (s ++ t)%string = all_chars f s && all_chars f t.
Proof.
  induction s as [| c s IH]; cbn; [reflexivity |].
  rewrite IH, andb_assoc. reflexivity.
Qed.

Lemma string_length_app (s t : string) :
  String.length (s ++ t)%string = String.length s + String.length t.
Proof.
  induction s as [| c s IH]; cbn; [| rewrite IH]; reflexivity.
Qed.

Lemma format_02x_hex_lower n :
  channel_ok n -> all_chars hex_lower (format_02x n) = true.
Proof.
  intros Hn. unfold channel_ok in Hn.
  assert (Hall : forallb
            (fun i => all_chars hex_lower (format_02x (N.of_nat i)))
            (seq 0 256) = true) by (vm_compute; reflexivity).
  rewrite forallb_forall in Hall.
  specialize (Hall (N.to_nat n)). rewrite N2Nat.id in Hall.
  apply Hall. apply in_seq. lia.
Qed.

(** X1. Two different colours with 8-bit channels get two different
    colour keys: a fill colour of the document names one colour. *)
Theorem color_key_injective r g b r' g' b' :
  channel_ok r -> channel_ok g -> channel_ok b ->
  channel_ok r' -> channel_ok g' -> channel_ok b' ->
  (r, g, b) <> (r', g', b') ->
  color_key r g b <> color_key r' g' b'.
Proof.
  intros Hr Hg Hb Hr' Hg' Hb' Hne E. apply Hne.
  apply key_of_inj; [cbn; tauto | cbn; tauto | exact E].
Qed.

(** X2. The colour key of a colour with 8-bit channels is a hash sign
    followed by exactly six lowercase hexadecimal digits. *)
Theorem color_key_shape r g b :
  channel_ok r -> channel_ok g -> channel_ok b ->
  exists digits,
    color_key r g b = String "#" digits /\
    String.length digits = 6 /\
    all_chars hex_lower digits = true.
Proof.
  intros Hr Hg Hb.
  exists (format_02x r ++ format_02x g ++ format_02x b)%string.
  split; [reflexivity |]. split.
  - rewrite !string_length_app.
    rewrite (proj2 (format_02x_channel r Hr)).
    rewrite (proj2 (format_02x_channel g Hg)).
    rewrite (proj2 (format_02x_channel b Hb)). reflexivity.
  - rewrite !all_chars_app, !format_02x_hex_lower by assumption.
    reflexivity.
Qed.

(** ** The dictionary operation, seen through lookups *)

(** X3. [layers.setdefault(color, []).append(rc)] adds [rc] at the end of
    the list found under [color], taking the empty list when the key is
    new; the lists under the other keys are left alone; the keys keep
    their order, a new key going last. *)
Theorem setdefault_append_lookup layers k rc :
  lookup (setdefault_append layers k rc) k =
    Some (match lookup layers k with
          | Some rects => rects ++ [rc]
          | None => [rc]
          end) /\
  (forall k', k' <> k ->
     lookup (setdefault_append layers k rc) k' = lookup layers k') /\
  map fst (setdefault_append layers k rc) =
    (if existsb (String.eqb k) (map fst layers) then map fst layers
     else map fst layers ++ [k]).
Proof.
  split; [| split].
  - induction layers as [| [k0 rects0] rest IH]; cbn.
    + rewrite String.eqb_refl. reflexivity.
    + destruct (String.eqb_spec k0 k) as [-> | Hne]; cbn.
      * rewrite String.eqb_refl. reflexivity.
      * destruct (String.eqb_spec k0 k); [contradiction | assumption].
  - intros k' Hk'. induction layers as [| [k0 rects0] rest IH]; cbn.
    + destruct (String.eqb_spec k k'); [congruence | reflexivity].
    + destruct (String.eqb_spec k0 k) as [-> | Hne]; cbn.
      * destruct (String.eqb_spec k k'); [congruence | reflexivity].
      * rewrite IH. reflexivity.
  - destruct (existsb (String.eqb k) (map fst layers)) eqn:E.
    + apply setdefault_append_keys_old.
      apply existsb_exists in E. destruct E as (k0 & Hin & Hk0).
      apply String.eqb_eq in Hk0. subst k0. assumption.
    + apply setdefault_append_keys_new. intros Hin.
      assert (Ht : existsb (String.eqb k) (map fst layers) = true).
      { apply existsb_exists. exists k. split; [assumption |].
        apply String.eqb_refl. }
      congruence.
Qed.

(** ** Runs are maximal to the left too *)

Lemma scan_left_maximal w h px :
  forall k rc, emitted_under (extract_layers w h px) k rc ->
               left_maximal px rc.
Proof.
  enough (H : (forall k rc, emitted_under (extract_layers w h px) k rc ->
                            left_maximal px rc) /\
              run_start_pos w px h 0) by (destruct H; assumption).
  apply (extract_layers_rule w h px
           (fun y x layers =>
              (forall k rc, emitted_under layers k rc -> left_maximal px rc)
              /\ run_start_pos w px y x)).
  - intros y x layers Hy Hx Ha [IH _]. split; [assumption |].
    right. right. left. replace (S x - 1) with x by lia. assumption.
  - intros y x layers r g b a x1 Hy Hx Hp Hnz Hx1 Hb Hend [IH Hpos].
    split.
    + intros k rc Hin. apply emitted_under_setdefault in Hin.
      destruct Hin as [Hin | [_ ->]]; [apply (IH k); assumption |].
      unfold left_maximal.
      destruct Hpos as [E | [Hw | [Hz | Hbr]]];
        [left; assumption | lia | right; left; assumption |].
      right. right. apply run_breaks_true in Hbr.
      destruct Hbr as [Hz | Hne].
      * rewrite Hp in Hz. contradiction.
      * intros E. apply Hne. symmetry. assumption.
    + destruct Hend as (_ & Hin & Hstop & _).
      destruct (Nat.eq_dec x1 w) as [E | Hne]; [right; left; lia |].
      right. right. right.
      destruct (Hin (x1 - 1) ltac:(lia)) as [_ Hlast].
      apply run_breaks_false in Hlast. destruct Hlast as [_ ->].
      apply Hstop. lia.
  - intros y layers Hy [IH _]. split; [assumption | left; reflexivity].
  - split; [| left; reflexivity].
    intros k rc (rects & [] & _).
Qed.

(** X4. Every emitted run is maximal to the left: it starts in column 0,
    or the pixel in front of its first pixel is transparent or of another
    colour. *)
Theorem runs_left_maximal w h px k x0 y rw rh :
  emitted_under (extract_layers w h px) k (x0, y, rw, rh) ->
  x0 = 0 \/
  alpha_of (px (x0 - 1) y) = 0%N \/
  rgb_of (px (x0 - 1) y) <> rgb_of (px x0 y).
Proof.
  intros Hin. exact (scan_left_maximal w h px k (x0, y, rw, rh) Hin).
Qed.

(** ** The painted area *)

Lemma total_width_setdefault layers k rc :
  total_width (setdefault_append layers k rc) =
  total_width layers + rect_width rc.
Proof.
  unfold total_width, emitted.
  induction layers as [| [k0 rects0] rest IH]; cbn.
  - lia.
  - destruct (String.eqb k0 k); cbn.
    + rewrite !map_app, !list_sum_app. cbn. lia.
    + rewrite !map_app, !list_sum_app, IH. lia.
Qed.

Lemma visible_in_row_S px y x :
  visible_in_row px y (S x) =
  visible_in_row px y x + (if visible (px x y) then 1 else 0).
Proof.
  unfold visible_in_row. rewrite seq_S, filter_app, length_app. cbn.
  destruct (visible (px x y)); reflexivity.
Qed.

Lemma visible_in_row_run px y x n :
  (forall x', x <= x' < x + n -> visible (px x' y) = true) ->
  visible_in_row px y (x + n) = visible_in_row px y x + n.
Proof.
  induction n as [| n IH]; intros Hv.
  - rewrite !Nat.add_0_r. reflexivity.
  - replace (x + S n) with (S (x + n)) by lia.
    rewrite visible_in_row_S, IH by (intros; apply Hv; lia).
    rewrite Hv by lia. lia.
Qed.

Lemma visible_in_row_le px y x : visible_in_row px y x <= x.
Proof.
  induction x as [| x IH]; [cbn; lia |].
  rewrite visible_in_row_S. destruct (visible (px x y)); lia.
Qed.

Lemma total_width_scan w h px :
  total_width (extract_layers w h px) = visible_pixels w h px.
Proof.
  enough (H : total_width (extract_layers w h px) =
              visible_pixels w h px + visible_in_row px h 0)
    by (rewrite H; cbn; lia).
  apply (extract_layers_rule w h px
           (fun y x layers =>
              total_width layers =
              visible_pixels w y px + visible_in_row px y x)).
  - intros y x layers Hy Hx Ha IH.
    rewrite visible_in_row_S, IH.
    apply visible_false in Ha. rewrite Ha. lia.
  - intros y x layers r g b a x1 Hy Hx Hp Hnz Hx1 Hb Hend IH.
    rewrite total_width_setdefault, IH. cbn [rect_width].
    replace x1 with (x + (x1 - x)) at 2 by lia.
    rewrite visible_in_row_run; [lia |].
    intros x' Hx'. apply visible_true.
    destruct Hend as (_ & Hin & _).
    destruct (Hin x' ltac:(lia)) as [_ Hbr].
    apply run_breaks_false in Hbr. tauto.
  - intros y layers Hy IH. rewrite IH.
    unfold visible_pixels. rewrite seq_S, map_app, list_sum_app. cbn. lia.
  - reflexivity.
Qed.

(** X5. The widths of the emitted rectangles add up to the number of
    non-transparent pixels of the image, and there are at most as many
    rectangles as there are such pixels. *)
Theorem painted_area w h px :
  total_width (extract_layers w h px) = visible_pixels w h px /\
  List.length (emitted (extract_layers w h px)) <= visible_pixels w h px.
Proof.
  split; [apply total_width_scan |].
  rewrite <- total_width_scan. unfold total_width.
  assert (Hall : Forall (fun rc => 1 <= rect_width rc)
                   (emitted (extract_layers w h px))).
  { apply Forall_forall. intros [[[x0 y] rw] rh] Hin.
    apply emitted_In in Hin. destruct Hin as (k & Hin).
    apply emitted_maximal in Hin. destruct Hin as (_ & Hrw & _).
    exact Hrw. }
  unfold list_sum.
  induction Hall as [| rc l Hrc _ IH];
    cbn [List.length map fold_right]; lia.
Qed.

(** ** The fill colours of the document *)

Lemma keys_from_pixels w h px k :
  In k (map fst (extract_layers w h px)) ->
  exists x y, x < w /\ y < h /\ alpha_of (px x y) <> 0%N /\
              k = key_of (rgb_of (px x y)).
Proof.
  intros Hin. apply in_map_iff in Hin.
  destruct Hin as ([k0 rects] & E & Hin). cbn in E. subst k0.
  destruct (ordered_scan w h px) as (Hall & _).
  rewrite Forall_forall in Hall. destruct (Hall _ Hin) as (Hne & _).
  cbn in Hne.
  destruct rects as [| [[[x0 y] rw] rh] rest]; [contradiction |].
  assert (Hrun : emitted_under (extract_layers w h px) k (x0, y, rw, rh)).
  { exists ((x0, y, rw, rh) :: rest).
    split; [assumption | left; reflexivity]. }
  apply emitted_maximal in Hrun.
  destruct Hrun as (_ & Hrw & Hxw & Hyh & c & Hk & Hpix & _).
  destruct (Hpix x0 ltac:(lia)) as [Hv Hc].
  exists x0, y. repeat split; try assumption; try lia.
  rewrite Hc. assumption.
Qed.

(** X6. The keys of the layer mapping are exactly the colour keys of the
    non-transparent pixels of the image. *)
Theorem keys_are_visible_colours w h px k :
  In k (map fst (extract_layers w h px)) <->
  exists x y, x < w /\ y < h /\ alpha_of (px x y) <> 0%N /\
              k = key_of (rgb_of (px x y)).
Proof.
  split; [apply keys_from_pixels |].
  intros (x & y & Hx & Hy & Hv & ->).
  destruct (covered_under_key w h px x y Hx Hy Hv)
    as (rc & (rects & Hin & _) & _).
  apply in_map_iff.
  exists (key_of (rgb_of (px x y)), rects).
  split; [reflexivity | assumption].
Qed.

(** ** Images of one colour *)

Section Uniform.

Variables (w h : nat) (px : nat -> nat -> pixel) (r g b : N).
Hypothesis Hw : 0 < w.
Hypothesis Huni : forall x y, x < w -> y < h ->
  alpha_of (px x y) <> 0%N /\ rgb_of (px x y) = (r, g, b).

Lemma uniform_extend_run y : y < h -> extend_run w px y (r, g, b) 0 = w.
Proof.
  intros Hy.
  destruct (extend_run_end w px y (r, g, b) 0) as (_ & _ & Hstop & Hle).
  specialize (Hle ltac:(lia)).
  destruct (Nat.eq_dec (extend_run w px y (r, g, b) 0) w) as [E | Hne];
    [assumption |].
  assert (Hlt : extend_run w px y (r, g, b) 0 < w) by lia.
  specialize (Hstop Hlt).
  assert (Hf : run_breaks (px (extend_run w px y (r, g, b) 0) y) (r, g, b)
               = false).
  { apply run_breaks_false. apply Huni; assumption. }
  congruence.
Qed.

Lemma uniform_scan_row y layers :
  y < h ->
  scan_row w px y 0 layers =
  setdefault_append layers (color_key r g b) (0, y, w, 1).
Proof.
  intros Hy. destruct (Huni 0 y Hw Hy) as [Ha Hrgb].
  destruct (px 0 y) as [[[r0 g0] b0] a] eqn:Hp. cbn in Ha, Hrgb.
  inversion Hrgb; subst r0 g0 b0.
  rewrite (scan_row_run w px y 0 layers r g b a Hw Hp Ha).
  rewrite uniform_extend_run by assumption.
  rewrite scan_row_done by lia. rewrite Nat.sub_0_r. reflexivity.
Qed.

Lemma uniform_scan_rows n y rects :
  y + n <= h ->
  scan_rows w px (seq y n) [(color_key r g b, rects)] =
  [(color_key r g b, rects ++ map (fun y' => (0, y', w, 1)) (seq y n))].
Proof.
  revert y rects. induction n as [| n IH]; intros y rects Hy.
  - cbn. rewrite app_nil_r. reflexivity.
  - cbn [seq map].
    change (scan_rows w px (y :: seq (S y) n) [(color_key r g b, rects)])
      with (scan_rows w px (seq (S y) n)
              (scan_row w px y 0 [(color_key r g b, rects)])).
    rewrite uniform_scan_row by lia.
    cbn [setdefault_append]. rewrite String.eqb_refl.
    rewrite IH by lia. rewrite <- app_assoc. reflexivity.
Qed.

Lemma uniform_scan_rows_nil n y :
  0 < n -> y + n <= h ->
  scan_rows w px (seq y n) [] =
  [(color_key r g b, map (fun y' => (0, y', w, 1)) (seq y n))].
Proof.
  intros Hn Hy. destruct n as [| n]; [lia |].
  cbn [seq map].
  change (scan_rows w px (y :: seq (S y) n) [])
    with (scan_rows w px (seq (S y) n) (scan_row w px y 0 [])).
  rewrite uniform_scan_row by lia.
  cbn [setdefault_append].
  rewrite uniform_scan_rows by lia. reflexivity.
Qed.

Lemma uniform_layers :
  0 < h ->
  extract_layers w h px =
  [(color_key r g b, map (fun y => (0, y, w, 1)) (seq 0 h))].
Proof.
  intros Hh. apply uniform_scan_rows_nil; lia.
Qed.

End Uniform.

(** X7. An image of at least one pixel whose pixels are all visible and of
    one colour gives a single group with one rectangle of full width per
    row, in the order of the rows: rows are never merged. *)
Theorem uniform_image w h px r g b :
  0 < w -> 0 < h ->
  (forall x y, x < w -> y < h ->
     alpha_of (px x y) <> 0%N /\ rgb_of (px x y) = (r, g, b)) ->
  extract_layers w h px =
  [(color_key r g b, map (fun y => (0, y, w, 1)) (seq 0 h))].
Proof.
  intros Hw Hh Huni. apply uniform_layers; assumption.
Qed.

(** ** The text of a rectangle *)

Lemma nilempty_digits d :
  all_chars dec_digit (DecimalString.NilEmpty.string_of_uint d) = true.
Proof.
  induction d; cbn [DecimalString.NilEmpty.string_of_uint all_chars];
    try rewrite IHd; reflexivity.
Qed.

Lemma str_int_digits n : all_chars dec_digit (str_int n) = true.
Proof.
  unfold str_int, DecimalString.NilZero.string_of_uint.
  destruct (Nat.to_uint n); try apply nilempty_digits. reflexivity.
Qed.

Lemma str_int_inj n m : str_int n = str_int m -> n = m.
Proof.
  intros E. apply DecimalNat.Unsigned.to_uint_inj.
  assert (Hnn : forall k, Nat.to_uint k <> Decimal.Nil).
  { intros k. rewrite <- (DecimalNat.Unsigned.of_to k) at 1.
    rewrite DecimalNat.Unsigned.to_of. apply DecimalFacts.unorm_nonnil. }
  pose proof (DecimalString.NilZero.usu _ (Hnn n)) as Hn.
  pose proof (DecimalString.NilZero.usu _ (Hnn m)) as Hm.
  unfold str_int in E. rewrite E in Hn. congruence.
Qed.

(** Two texts that start with a field of characters accepted by [f],
    closed by a character that [f] refuses, agree on the field and on
    the rest. *)
Lemma field_split f c (s s' t t' : string) :
  all_chars f s = true -> all_chars f s' = true -> f c = false ->
  (s ++ String c t)%string = (s' ++ String c t')%string ->
  s = s' /\ t = t'.
Proof.
  intros Hs Hs' Hc. revert s' Hs'.
  induction s as [| a s IH]; intros [| a' s'] Hs' E; cbn in *.
  - inversion E. split; reflexivity.
  - inversion E; subst. apply andb_prop in Hs'. destruct Hs'. congruence.
  - inversion E; subst. apply andb_prop in Hs. destruct Hs. congruence.
  - inversion E; subst.
    apply andb_prop in Hs. apply andb_prop in Hs'.
    destruct (IH (proj2 Hs) s' (proj2 Hs')) as [-> ->]; [assumption |].
    split; reflexivity.
Qed.

Lemma rect_line_inj rc rc' : rect_line rc = rect_line rc' -> rc = rc'.
Proof.
  destruct rc as [[[x0 y0] rw] rh], rc' as [[[x0' y0'] rw'] rh'].
  unfold rect_line, dquote. cbn [append]. intros E.
  assert (Hq : dec_digit (ascii_of_nat 34) = false) by reflexivity.
  injection E as E.
  apply field_split with (f := dec_digit) in E;
    try apply str_int_digits; try assumption.
  destruct E as [Ex E]. injection E as E.
  apply field_split with (f := dec_digit) in E;
    try apply str_int_digits; try assumption.
  destruct E as [Ey E]. injection E as E.
  apply field_split with (f := dec_digit) in E;
    try apply str_int_digits; try assumption.
  destruct E as [Ew E]. injection E as E.
  apply field_split with (f := dec_digit) in E;
    try apply str_int_digits; try assumption.
  destruct E as [Eh _].
  apply str_int_inj in Ex, Ey, Ew, Eh. congruence.
Qed.

(** X9. Two different rectangles are printed as two different rectangle
    elements: the text of an element determines its four numbers. *)
Theorem rect_line_injective rc rc' :
  rc <> rc' -> rect_line rc <> rect_line rc'.
Proof.
  intros Hne E. apply Hne. apply rect_line_inj. assumption.
Qed.

(** ** The lines of the document *)

Lemma count_char_app c (s t : string) :
  count_char c (s ++ t)%string = count_char c s + count_char c t.
Proof.
  induction s as [| a s IH]; cbn; [| rewrite IH; lia]. reflexivity.
Qed.

Lemma count_char_none f c s :
  all_chars f s = true -> f c = false -> count_char c s = 0.
Proof.
  intros Hs Hc. induction s as [| a s IH]; cbn in *; [reflexivity |].
  apply andb_prop in Hs. destruct Hs as [Ha Hs].
  destruct (Ascii.eqb_spec a c) as [-> | _]; [congruence |].
  rewrite IH by assumption. reflexivity.
Qed.

Lemma str_int_one_line n : count_char line_feed (str_int n) = 0.
Proof.
  apply (count_char_none dec_digit);
    [apply str_int_digits | reflexivity].
Qed.

Lemma nilempty_hex_digits d :
  all_chars hex_lower (HexadecimalString.NilEmpty.string_of_uint d) = true.
Proof.
  induction d; cbn [HexadecimalString.NilEmpty.string_of_uint all_chars];
    try rewrite IHd; reflexivity.
Qed.

Lemma format_02x_one_line n : count_char line_feed (format_02x n) = 0.
Proof.
  apply (count_char_none hex_lower); [| reflexivity].
  unfold format_02x. rewrite all_chars_app. apply andb_true_intro. split.
  - induction (2 - String.length (hex n)) as [| k IH];
      [reflexivity | exact IH].
  - unfold hex, HexadecimalString.NilZero.string_of_uint.
    destruct (N.to_hex_uint n); try apply nilempty_hex_digits. reflexivity.
Qed.

Lemma color_key_one_line r g b : count_char line_feed (color_key r g b) = 0.
Proof.
  unfold color_key. rewrite !count_char_app, !format_02x_one_line.
  reflexivity.
Qed.

Lemma rect_line_one_line rc : count_char line_feed (rect_line rc) = 1.
Proof.
  destruct rc as [[[x0 y0] rw] rh]. unfold rect_line.
  rewrite !count_char_app, !str_int_one_line. reflexivity.
Qed.

Lemma rect_lines_count rects :
  count_char line_feed (String.concat EmptyString (map rect_line rects)) =
  List.length rects.
Proof.
  induction rects as [| rc rects IH]; [reflexivity |].
  cbn [map List.length].
  rewrite concat_cons, count_char_app, rect_line_one_line, IH. reflexivity.
Qed.

Lemma group_text_lines k rects :
  count_char line_feed k = 0 ->
  count_char line_feed (group_text (k, rects)) = 2 + List.length rects.
Proof.
  intros Hk. unfold group_text, g_open, g_close. cbn [fst snd].
  rewrite !count_char_app, rect_lines_count, Hk. cbn. lia.
Qed.

Lemma groups_text_lines layers :
  Forall (fun g => count_char line_feed (fst g) = 0) layers ->
  count_char line_feed (String.concat EmptyString (map group_text layers)) =
  2 * List.length layers + List.length (emitted layers).
Proof.
  induction 1 as [| [k rects] layers Hk _ IH]; [reflexivity |].
  cbn [map]. rewrite concat_cons, count_char_app, IH.
  rewrite group_text_lines by exact Hk.
  unfold emitted. cbn [map List.concat List.length snd].
  rewrite length_app. lia.
Qed.

(** X10. The document has two lines for the root element, two lines per
    group and one line per rectangle. *)
Theorem document_lines w h px :
  count_char line_feed (png2svg w h px) =
  2 + 2 * List.length (extract_layers w h px)
    + List.length (emitted (extract_layers w h px)).
Proof.
  unfold png2svg. rewrite write_svg_text.
  rewrite !count_char_app, groups_text_lines.
  - unfold svg_open, svg_close.
    rewrite !count_char_app, !str_int_one_line. cbn. lia.
  - apply Forall_forall. intros [k rects] Hin. cbn [fst].
    assert (Hk : In k (map fst (extract_layers w h px))).
    { apply in_map_iff. exists (k, rects). split; [reflexivity | exact Hin]. }
    apply keys_from_pixels in Hk.
    destruct Hk as (x & y & _ & _ & _ & ->).
    destruct (rgb_of (px x y)) as [[r g] b]. apply color_key_one_line.
Qed.

(** ** Rectangles do not overlap *)

Lemma cover_count_le_1 w h px x y :
  cover_count (extract_layers w h px) x y <= 1.
Proof.
  destruct (Nat.lt_ge_cases x w) as [Hx | Hx];
    [destruct (Nat.lt_ge_cases y h) as [Hy | Hy] |].
  - rewrite cover_count_scan by assumption.
    destruct (visible (px x y)); lia.
  - enough (E : cover_count (extract_layers w h px) x y = 0) by lia.
    apply cover_count_zero. intros [[[x0 y0] rw] rh] Hin [Hcx Hcy].
    apply emitted_In in Hin. destruct Hin as (k & Hin).
    apply emitted_maximal in Hin. destruct Hin as (-> & _ & _ & Hyh & _).
    lia.
  - enough (E : cover_count (extract_layers w h px) x y = 0) by lia.
    apply cover_count_zero. intros [[[x0 y0] rw] rh] Hin [Hcx Hcy].
    apply emitted_In in Hin. destruct Hin as (k & Hin).
    apply emitted_maximal in Hin. destruct Hin as (_ & _ & Hxw & _).
    lia.
Qed.

Lemma filter_at_most_one {A} (f : A -> bool) (l : list A) i j a b :
  List.length (filter f l) <= 1 -> i < j ->
  nth_error l i = Some a -> nth_error l j = Some b ->
  f a = true -> f b = true -> False.
Proof.
  revert i j. induction l as [| c l IH]; intros i j Hlen Hij Ha Hb Hfa Hfb.
  - destruct i; discriminate.
  - destruct j as [| j]; [lia |]. cbn in Hb.
    destruct i as [| i]; cbn in Ha.
    + inversion Ha; subst c. cbn in Hlen. rewrite Hfa in Hlen. cbn in Hlen.
      assert (Hin : In b (filter f l)).
      { apply filter_In. split; [| assumption].
        apply nth_error_In with (n := j). assumption. }
      destruct (filter f l); [destruct Hin | cbn in Hlen; lia].
    + apply (IH i j); try assumption; [| lia].
      cbn in Hlen. destruct (f c); cbn in Hlen; lia.
Qed.

(** X11. Two rectangles emitted at different places of the output never
    paint the same pixel. *)
Theorem rects_disjoint w h px i j rc1 rc2 x y :
  i <> j ->
  nth_error (emitted (extract_layers w h px)) i = Some rc1 ->
  nth_error (emitted (extract_layers w h px)) j = Some rc2 ->
  covers rc1 x y -> ~ covers rc2 x y.
Proof.
  intros Hij H1 H2 Hc1 Hc2.
  apply coversb_covers in Hc1, Hc2.
  pose proof (cover_count_le_1 w h px x y) as Hle. unfold cover_count in Hle.
  destruct (Nat.lt_ge_cases i j) as [Hlt | Hge].
  - exact (filter_at_most_one _ _ i j rc1 rc2 Hle Hlt H1 H2 Hc1 Hc2).
  - exact (filter_at_most_one _ _ j i rc2 rc1 Hle ltac:(lia) H2 H1 Hc2 Hc1).
Qed.

(** ** The further properties at concrete images *)

Lemma color_key_injective_witness :
  (255, 0, 0)%N <> (0, 0, 255)%N /\
  color_key 255 0 0 <> color_key 0 0 255.
Proof.
  assert (Hne : (255, 0, 0)%N <> (0, 0, 255)%N) by discriminate.
  split; [exact Hne |].
  apply (color_key_injective 255 0 0 0 0 255);
    try reflexivity; exact Hne.
Defined.

Lemma color_key_shape_witness :
  channel_ok 1 /\ channel_ok 171 /\ channel_ok 16 /\
  exists digits,
    color_key 1 171 16 = String "#" digits /\
    String.length digits = 6 /\
    all_chars hex_lower digits = true.
Proof.
  repeat (split; [reflexivity |]).
  apply (color_key_shape 1 171 16); reflexivity.
Defined.

Lemma runs_left_maximal_witness :
  emitted_under (extract_layers 4 2 gaps) "#0000ff" (3, 0, 1, 1) /\
  (3 = 0 \/
   alpha_of (gaps (3 - 1) 0) = 0%N \/
   rgb_of (gaps (3 - 1) 0) <> rgb_of (gaps 3 0)).
Proof.
  assert (Hin : emitted_under (extract_layers 4 2 gaps)
                  "#0000ff" (3, 0, 1, 1)).
  { exists [(3, 0, 1, 1); (0, 1, 2, 1)].
    split; [vm_compute; right; left; reflexivity | left; reflexivity]. }
  split; [exact Hin |].
  exact (runs_left_maximal 4 2 gaps "#0000ff" 3 0 1 1 Hin).
Defined.

Lemma uniform_image_witness :
  (forall x y, x < 2 -> y < 3 ->
     alpha_of (all_red x y) <> 0%N /\
     rgb_of (all_red x y) = (255, 0, 0)%N) /\
  extract_layers 2 3 all_red =
  [("#ff0000", [(0, 0, 2, 1); (0, 1, 2, 1); (0, 2, 2, 1)])].
Proof.
  assert (Huni : forall x y, x < 2 -> y < 3 ->
                   alpha_of (all_red x y) <> 0%N /\
                   rgb_of (all_red x y) = (255, 0, 0)%N).
  { intros x y Hx Hy.
    destruct y as [| [| [| y]]]; [| | | lia];
      (destruct x as [| [| x]]; [| | lia]);
      (split; [vm_compute; discriminate | reflexivity]). }
  split; [exact Huni |].
  exact (uniform_image 2 3 all_red 255 0 0
           ltac:(lia) ltac:(lia) Huni).
Defined.

Lemma rect_line_injective_witness :
  (0, 1, 12, 1) <> (0, 11, 2, 1) /\
  rect_line (0, 1, 12, 1) <> rect_line (0, 11, 2, 1).
Proof.
  assert (Hne : (0, 1, 12, 1) <> (0, 11, 2, 1)) by discriminate.
  split; [exact Hne | exact (rect_line_injective _ _ Hne)].
Defined.

Lemma rects_disjoint_witness :
  0 <> 2 /\
  nth_error (emitted (extract_layers 4 2 gaps)) 0 = Some (0, 0, 1, 1) /\
  nth_error (emitted (extract_layers 4 2 gaps)) 2 = Some (3, 1, 1, 1) /\
  covers (0, 0, 1, 1) 0 0 /\
  ~ covers (3, 1, 1, 1) 0 0.
Proof.
  assert (Hne : 0 <> 2) by discriminate.
  assert (H1 : nth_error (emitted (extract_layers 4 2 gaps)) 0
               = Some (0, 0, 1, 1)) by (vm_compute; reflexivity).
  assert (H2 : nth_error (emitted (extract_layers 4 2 gaps)) 2
               = Some (3, 1, 1, 1)) by (vm_compute; reflexivity).
  assert (Hc : covers (0, 0, 1, 1) 0 0) by (unfold covers; lia).
  repeat (split; [assumption |]).
  exact (rects_disjoint 4 2 gaps 0 2 _ _ 0 0 Hne H1 H2 Hc).
Defined.

(** * The writer against the document format *)

Lemma to_uint_nonnil n : Nat.to_uint n <> Decimal.Nil.
Proof.
  rewrite <- (DecimalNat.Unsigned.of_to n) at 1.
  rewrite DecimalNat.Unsigned.to_of. apply DecimalFacts.unorm_nonnil.
Qed.

Lemma str_int_decimal n : decimal_of n (str_int n).
Proof.
  exists (Nat.to_uint n). split; [| split].
  - apply DecimalString.NilZero.usu. apply to_uint_nonnil.
  - apply DecimalNat.Unsigned.of_to.
  - pose proof (DecimalNat.Unsigned.to_of (Nat.to_uint n)) as E.
    rewrite DecimalNat.Unsigned.of_to in E. symmetry. exact E.
Qed.

Lemma rect_line_element rc : rect_element rc (rect_line rc).
Proof.
  destruct rc as [[[x0 y0] rw] rh]. unfold rect_element, rect_line.
  exists (str_int x0), (str_int y0), (str_int rw), (str_int rh).
  repeat (split; [apply str_int_decimal |]). reflexivity.
Qed.

Lemma rect_lines_elements rects :
  Forall2 rect_element rects (map rect_line rects).
Proof.
  induction rects as [| rc rects IH]; cbn; constructor;
    [apply rect_line_element | assumption].
Qed.

Lemma group_text_element g : group_element g (group_text g).
Proof.
  exists (map rect_line (snd g)). split; [apply rect_lines_elements |].
  unfold group_text, g_open, g_close.
  rewrite !string_app_assoc. reflexivity.
Qed.

Lemma group_texts_elements layers :
  Forall2 group_element layers (map group_text layers).
Proof.
  induction layers as [| g layers IH]; cbn; constructor;
    [apply group_text_element | assumption].
Qed.

(** The writer produces a document of the specified format, whatever the
    layer mapping is. *)
Lemma write_svg_document w h layers :
  svg_document w h layers (write_svg w h layers).
Proof.
  exists (str_int w), (str_int h), (map group_text layers).
  repeat (split; [first [apply str_int_decimal
                        | apply group_texts_elements] |]).
  rewrite write_svg_text. unfold svg_open, svg_close.
  rewrite !string_app_assoc. reflexivity.
Qed.

(** * The layer mapping against the pixels *)

Lemma group_unique (layers : layers_t) k rects rects' :
  NoDup (map fst layers) ->
  In (k, rects) layers -> In (k, rects') layers -> rects = rects'.
Proof.
  induction layers as [| [k0 rs0] rest IH]; cbn; intros Hnd H1 H2;
    [destruct H1 |].
  inversion Hnd as [| ? ? Hnin Hnd']; subst.
  assert (Hkey : forall rs, In (k, rs) rest -> In k (map fst rest)).
  { intros rs Hin. apply in_map_iff. exists (k, rs).
    split; [reflexivity | assumption]. }
  destruct H1 as [E1 | H1], H2 as [E2 | H2].
  - congruence.
  - inversion E1; subst. destruct Hnin. apply (Hkey rects'). assumption.
  - inversion E2; subst. destruct Hnin. apply (Hkey rects). assumption.
  - apply IH; assumption.
Qed.

Lemma emitted_is_image_run w h px k rc :
  emitted_under (extract_layers w h px) k rc -> image_run w h px k rc.
Proof.
  intros Hin. pose proof (scan_left_maximal w h px k rc Hin) as Hleft.
  apply emitted_maximal in Hin.
  destruct rc as [[[x0 y] rw] rh].
  destruct Hin as (Hh & Hrw & Hxw & Hyh & c & Hk & Hpix & Hstop).
  unfold image_run. repeat (split; [assumption |]).
  exists c. repeat (split; [assumption |]). split; [| assumption].
  unfold left_maximal in Hleft.
  destruct (Hpix x0 ltac:(lia)) as [_ Hc]. rewrite Hc in Hleft.
  assumption.
Qed.

Lemma image_run_is_emitted w h px k rects rc :
  In (k, rects) (extract_layers w h px) ->
  image_run w h px k rc -> In rc rects.
Proof.
  intros Hgrp Hrun. destruct rc as [[[x0 y] rw] rh].
  destruct Hrun as (-> & Hrw & Hxw & Hyh & c & Hk & Hpix & Hleft & Hright).
  destruct (Hpix x0 ltac:(lia)) as [Hv0 Hc0].
  destruct (covered_under_key w h px x0 y ltac:(lia) Hyh Hv0)
    as ([[[x0' y'] rw'] rh'] & Hin' & Hcov).
  rewrite Hc0, <- Hk in Hin'.
  assert (Hrects : In (x0', y', rw', rh') rects).
  { destruct Hin' as (rects' & Hg' & Hrc').
    destruct (ordered_scan w h px) as (_ & _ & Hnd).
    rewrite (group_unique _ k rects rects' Hnd Hgrp Hg'). assumption. }
  apply emitted_maximal in Hin'.
  destruct Hin' as (-> & Hrw' & Hxw' & Hyh' & c' & Hk' & Hpix' & Hright').
  destruct Hcov as [Hcx Hcy]. assert (y' = y) by lia. subst y'.
  assert (Hcc : c' = c).
  { destruct (Hpix' x0 Hcx) as [_ E]. congruence. }
  subst c'.
  assert (Hx : x0' = x0).
  { destruct (Nat.eq_dec x0' x0) as [E | Hne]; [assumption | exfalso].
    destruct (Hpix' (x0 - 1) ltac:(lia)) as [Hv Hc].
    destruct Hleft as [E | [Hz | Hd]]; [lia | contradiction | contradiction]. }
  subst x0'.
  assert (Hw : rw' = rw).
  { destruct (Nat.lt_trichotomy rw rw') as [Hlt | [E | Hgt]];
      [exfalso | symmetry; assumption | exfalso].
    - destruct (Hpix' (x0 + rw) ltac:(lia)) as [Hv Hc].
      destruct Hright as [E | [Hz | Hd]];
        [lia | contradiction | contradiction].
    - destruct (Hpix (x0 + rw') ltac:(lia)) as [Hv Hc].
      destruct Hright' as [E | [Hz | Hd]];
        [lia | contradiction | contradiction]. }
  subst rw'. assumption.
Qed.

Lemma key_of_visible_pixel w h px x y :
  x < w -> y < h -> alpha_of (px x y) <> 0%N ->
  In (key_of (rgb_of (px x y))) (map fst (extract_layers w h px)).
Proof.
  intros Hx Hy Hv.
  destruct (covered_under_key w h px x y Hx Hy Hv)
    as (rc & (rects & Hin & _) & _).
  apply in_map_iff. exists (key_of (rgb_of (px x y)), rects).
  split; [reflexivity | assumption].
Qed.

Lemma StronglySorted_map_in {A B} (R : A -> A -> Prop) (R' : B -> B -> Prop)
  (f : A -> B) (l : list A) :
  (forall a b, In a l -> In b l -> R a b -> R' (f a) (f b)) ->
  StronglySorted R l -> StronglySorted R' (map f l).
Proof.
  intros Himp Hss. induction Hss as [| a l Hss IH Hall]; cbn.
  - constructor.
  - constructor.
    + apply IH. intros x y Hx Hy. apply Himp; right; assumption.
    + rewrite Forall_forall in Hall. apply Forall_forall.
      intros b' Hb'. apply in_map_iff in Hb'.
      destruct Hb' as (b & <- & Hb).
      apply Himp; [left; reflexivity | right; assumption | auto].
Qed.

Lemma group_before_key_before w h px g1 g2 :
  In g1 (extract_layers w h px) -> In g2 (extract_layers w h px) ->
  group_before g1 g2 -> key_before w h px (fst g1) (fst g2).
Proof.
  destruct g1 as [k1 rects1], g2 as [k2 rects2]. cbn [fst].
  intros Hg1 Hg2 ([[[x1 y1] rw1] rh1] & Hin1 & Hbefore). cbn [snd] in *.
  assert (Hrun1 : emitted_under (extract_layers w h px) k1 (x1, y1, rw1, rh1))
    by (exists rects1; split; assumption).
  apply emitted_maximal in Hrun1.
  destruct Hrun1 as (_ & Hrw1 & Hxw1 & Hyh1 & c1 & Hk1 & Hpix1 & _).
  destruct (Hpix1 x1 ltac:(lia)) as [Hv1 Hc1].
  exists x1, y1. repeat (split; [first [assumption | lia] |]).
  split; [rewrite Hc1; symmetry; assumption |].
  intros x2 y2 Hx2 Hy2 Hv2 Hk2.
  destruct (covered_under_key w h px x2 y2 Hx2 Hy2 Hv2)
    as ([[[x0 y0] rw] rh] & Hin2 & Hcov).
  rewrite Hk2 in Hin2.
  assert (Hrects : In (x0, y0, rw, rh) rects2).
  { destruct Hin2 as (rects' & Hg' & Hrc').
    destruct (ordered_scan w h px) as (_ & _ & Hnd).
    rewrite (group_unique _ k2 rects2 rects' Hnd Hg2 Hg'). assumption. }
  apply emitted_maximal in Hin2. destruct Hin2 as (-> & _).
  specialize (Hbefore _ Hrects). cbn in Hbefore.
  destruct Hcov as [Hcx Hcy]. unfold pixel_before. lia.
Qed.

Lemma keys_in_scan_order w h px :
  StronglySorted (key_before w h px) (map fst (extract_layers w h px)).
Proof.
  destruct (ordered_scan w h px) as (_ & Hss & _).
  apply (StronglySorted_map_in group_before); [| assumption].
  intros g1 g2. apply group_before_key_before.
Qed.

Lemma Forall2_map_right {A B} (P : A -> Prop) (Q : A -> B -> Prop)
  (f : A -> B) (l : list A) :
  (forall a, P a -> Q a (f a)) -> Forall P l -> Forall2 Q l (map f l).
Proof.
  intros Himp Hall. induction Hall as [| a l Ha _ IH]; cbn; constructor;
    [apply Himp |]; assumption.
Qed.

(** * The document and the order of the output *)

(** C5, as stated, fails: the document of the transparent 2x2 image has
    neither a width nor a height attribute; the words do not occur in it. *)
Lemma transparent_image_no_size_attribute :
  (forall x y, x < 2 -> y < 2 -> alpha_of (clear_image x y) = 0%N) /\
  String.index 0 "width" (png2svg 2 2 clear_image) = None /\
  String.index 0 "height" (png2svg 2 2 clear_image) = None.
Proof.
  split; [| split; vm_compute; reflexivity].
  intros x y Hx Hy.
  destruct y as [| [| y]]; [| | lia];
    (destruct x as [| [| x]]; [| | lia]); reflexivity.
Qed.

(** C5, amended. A W x H image in which every pixel has alpha zero gives
    a document whose root element declares the view box [0 0 W H], with W
    and H as decimal numerals, and that holds no group and no rectangle:
    the opening tag of the root is followed by its closing tag. *)
Theorem transparent_image_document w h px :
  (forall x y, x < w -> y < h -> alpha_of (px x y) = 0%N) ->
  extract_layers w h px = [] /\
  exists sw sh,
    decimal_of w sw /\ decimal_of h sh /\
    png2svg w h px =
      ("<svg xmlns=" ++ dquote ++ "http://www.w3.org/2000/svg" ++ dquote
       ++ " viewBox=" ++ dquote ++ "0 0 " ++ sw ++ " " ++ sh ++ dquote
       ++ " shape-rendering=" ++ dquote ++ "crispEdges" ++ dquote
       ++ ">" ++ newline ++ "</svg>" ++ newline)%string.
Proof.
  intros Hclear.
  assert (Hnil : extract_layers w h px = []).
  { apply (extract_layers_rule w h px (fun _ _ layers => layers = []));
      auto.
    intros y x layers r g b a x1 Hy Hx Hp Hnz.
    specialize (Hclear x y Hx Hy). rewrite Hp in Hclear. contradiction. }
  split; [assumption |].
  exists (str_int w), (str_int h).
  repeat (split; [apply str_int_decimal |]).
  unfold png2svg. rewrite Hnil, write_svg_text.
  unfold svg_open, svg_close. cbn [map String.concat].
  rewrite !string_app_assoc. reflexivity.
Qed.

(** C7. There is one group per key, and the keys of the groups are the
    keys of the visible pixels, in the order in which the row-major scan
    first meets them; the rectangles of a group are the runs of the image
    with the group's key, in row-major order; and the document holds one
    group element per group in that order, each with one rectangle
    element per run in that order, printing the four numbers of the run. *)
Theorem output_order w h px :
  NoDup (map fst (extract_layers w h px)) /\
  (forall k, In k (map fst (extract_layers w h px)) <->
     exists x y, x < w /\ y < h /\ alpha_of (px x y) <> 0%N /\
                 key_of (rgb_of (px x y)) = k) /\
  StronglySorted (key_before w h px) (map fst (extract_layers w h px)) /\
  StronglySorted group_before (extract_layers w h px) /\
  Forall (fun g => StronglySorted scan_lt (snd g) /\
                   forall rc, In rc (snd g) <-> image_run w h px (fst g) rc)
    (extract_layers w h px) /\
  svg_document w h (extract_layers w h px) (png2svg w h px).
Proof.
  destruct (ordered_scan w h px) as (Hall & Hss & Hnd).
  split; [assumption |]. split; [| split; [| split; [| split]]].
  - intros k. split.
    + intros Hin. apply keys_from_pixels in Hin.
      destruct Hin as (x & y & Hx & Hy & Hv & ->).
      exists x, y. repeat (split; [assumption |]). reflexivity.
    + intros (x & y & Hx & Hy & Hv & <-).
      apply key_of_visible_pixel; assumption.
  - apply keys_in_scan_order.
  - assumption.
  - rewrite Forall_forall in Hall. apply Forall_forall.
    intros [k rects] Hin. destruct (Hall _ Hin) as (_ & Hs & _).
    cbn [fst snd] in *. split; [assumption |].
    intros rc. split.
    + intros Hrc. apply emitted_is_image_run.
      exists rects. split; assumption.
    + apply image_run_is_emitted. assumption.
  - apply write_svg_document.
Qed.

(** C10. No group is empty: the document holds one group element per key
    of the layer mapping, and each of them holds at least one rectangle
    element; and every key of the mapping holds a run of a colour with
    that key that was extracted from the image. *)
Theorem groups_not_empty w h px :
  (exists sw sh groups,
     decimal_of w sw /\ decimal_of h sh /\
     png2svg w h px =
       ("<svg xmlns=" ++ dquote ++ "http://www.w3.org/2000/svg" ++ dquote
        ++ " viewBox=" ++ dquote ++ "0 0 " ++ sw ++ " " ++ sh ++ dquote
        ++ " shape-rendering=" ++ dquote ++ "crispEdges" ++ dquote
        ++ ">" ++ newline
        ++ String.concat EmptyString groups
        ++ "</svg>" ++ newline)%string /\
     Forall2
       (fun g s =>
          exists rc rest line lines,
            snd g = rc :: rest /\
            rect_element rc line /\ Forall2 rect_element rest lines /\
            s = ("  <g fill=" ++ dquote ++ fst g ++ dquote ++ ">" ++ newline
                 ++ line ++ String.concat EmptyString lines
                 ++ "  </g>" ++ newline)%string)
       (extract_layers w h px) groups) /\
  (forall k rects, In (k, rects) (extract_layers w h px) ->
     exists x0 y rw rest r g b,
       rects = (x0, y, rw, 1) :: rest /\
       k = color_key r g b /\ 1 <= rw /\
       (forall x, x0 <= x < x0 + rw ->
          alpha_of (px x y) <> 0%N /\ rgb_of (px x y) = (r, g, b))).
Proof.
  destruct (ordered_scan w h px) as (Hall & _).
  split.
  - exists (str_int w), (str_int h),
      (map group_text (extract_layers w h px)).
    repeat (split; [apply str_int_decimal |]). split.
    + unfold png2svg. rewrite write_svg_text. unfold svg_open, svg_close.
      rewrite !string_app_assoc. reflexivity.
    + apply (Forall2_map_right
               (fun g => snd g <> [] /\
                         StronglySorted scan_lt (snd g) /\
                         Forall (before_pos h 0) (snd g))); [| assumption].
      intros [k rects] (Hne & _). cbn [fst snd] in *.
      destruct rects as [| rc rest]; [contradiction |].
      exists rc, rest, (rect_line rc), (map rect_line rest).
      split; [reflexivity |].
      split; [apply rect_line_element |].
      split; [apply rect_lines_elements |].
      unfold group_text, g_open, g_close. cbn [fst snd map].
      rewrite concat_cons, !string_app_assoc. reflexivity.
  - intros k rects Hin.
    rewrite Forall_forall in Hall. destruct (Hall _ Hin) as (Hne & _).
    cbn in Hne.
    destruct rects as [| [[[x0 y] rw] rh] rest]; [contradiction |].
    assert (Hrun : emitted_under (extract_layers w h px) k (x0, y, rw, rh)).
    { exists ((x0, y, rw, rh) :: rest).
      split; [assumption | left; reflexivity]. }
    apply emitted_maximal in Hrun.
    destruct Hrun as (-> & Hrw & _ & _ & [[r g] b] & Hk & Hpix & _).
    exists x0, y, rw, rest, r, g, b.
    split; [reflexivity |]. repeat (split; [assumption |]). assumption.
Qed.

Lemma transparent_image_document_witness :
  (forall x y, x < 2 -> y < 2 -> alpha_of (clear_image x y) = 0%N) /\
  extract_layers 2 2 clear_image = [] /\
  exists sw sh,
    decimal_of 2 sw /\ decimal_of 2 sh /\
    png2svg 2 2 clear_image =
      ("<svg xmlns=" ++ dquote ++ "http://www.w3.org/2000/svg" ++ dquote
       ++ " viewBox=" ++ dquote ++ "0 0 " ++ sw ++ " " ++ sh ++ dquote
       ++ " shape-rendering=" ++ dquote ++ "crispEdges" ++ dquote
       ++ ">" ++ newline ++ "</svg>" ++ newline)%string.
Proof.
  assert (Hclear : forall x y, x < 2 -> y < 2 ->
                     alpha_of (clear_image x y) = 0%N).
  { intros x y Hx Hy.
    destruct y as [| [| y]]; [| | lia];
      (destruct x as [| [| x]]; [| | lia]); reflexivity. }
  split; [exact Hclear |].
  exact (transparent_image_document 2 2 clear_image Hclear).
Defined.
